(** * SearchBar: the search-and-select engine of [src/components/SearchBar.tsx]

    A shallow embedding of the component's handlers and text transforms,
    together with the parts of the JavaScript runtime they call
    (strings as sequences of UTF-16 code units, [String.prototype.split],
    [RegExp] on the pattern language the component builds,
    [String.fromCodePoint]), and the properties stated about them.

    The component imports [useDebounce], [useKeyboardNavigation] and
    [searchLocation] from files that are not at hand: the first two follow
    their description in the specification, the third is the environment
    (a request goes out, and is settled by a later event).  Case mapping
    covers the Basic Latin letters. *)

From Stdlib Require Import String Ascii List NArith ZArith Bool Arith Lia Btauto.
From Stdlib Require Import DecimalString DecimalNat.
Import ListNotations.

(** ** The JavaScript runtime the component relies on *)
Module Js.

(** A string value is a finite sequence of 16-bit code units. *)
Definition code_unit := N.
Definition jsstring := list code_unit.

(** Source literals that are plain ASCII, written as Rocq strings. *)
Definition lit (s : string) : jsstring :=
  map N_of_ascii (list_ascii_of_string s).

Definition cu_eqb (a b : code_unit) : bool := N.eqb a b.

Fixpoint str_eqb (a b : jsstring) : bool :=
  match a, b with
  | [], [] => true
  | x :: a', y :: b' => cu_eqb x y && str_eqb a' b'
  | _, _ => false
  end.

(** What an evaluation gives: a value, or a thrown error.  The third case
    marks a [RegExp] pattern outside the pattern language modelled below;
    it is never caught by [try]. *)
Inductive error :=
  | SyntaxError (msg : string)
  | RangeError (msg : string)
  | TypeError (msg : string)
  | Rejected (reason : string).

Inductive completion (A : Type) :=
  | Normal (a : A)
  | Throw (e : error)
  | Unmodelled.
Arguments Normal {A} a.
Arguments Throw {A} e.
Arguments Unmodelled {A}.

(** *** Whitespace and [trim] *)

(** WhiteSpace and LineTerminator code units, as [String.prototype.trim]
    strips them. *)
Definition is_white (c : code_unit) : bool :=
  ((9 <=? c) && (c <=? 13) || (c =? 32) || (c =? 160) || (c =? 5760)
   || (8192 <=? c) && (c <=? 8202) || (c =? 8232) || (c =? 8233)
   || (c =? 8239) || (c =? 8287) || (c =? 12288) || (c =? 65279))%N.

Fixpoint trimStart (s : jsstring) : jsstring :=
  match s with
  | [] => []
  | c :: s' => if is_white c then trimStart s' else s
  end.

Definition trimEnd (s : jsstring) : jsstring := rev (trimStart (rev s)).

Definition trim (s : jsstring) : jsstring := trimEnd (trimStart s).

(** JavaScript truthiness of a string: the empty string is falsy. *)
Definition truthy (s : jsstring) : bool :=
  match s with [] => false | _ :: _ => true end.

(** *** Case conversion

    Case mapping is modelled on the Basic Latin letters; every other code
    unit is mapped to itself. *)
Definition is_lower (c : code_unit) : bool := ((97 <=? c) && (c <=? 122))%N.
Definition is_upper (c : code_unit) : bool := ((65 <=? c) && (c <=? 90))%N.
Definition is_letter (c : code_unit) : bool := is_lower c || is_upper c.
Definition is_basic_latin (c : code_unit) : bool := (c <? 128)%N.

Definition upper_cu (c : code_unit) : code_unit :=
  if is_lower c then (c - 32)%N else c.
Definition lower_cu (c : code_unit) : code_unit :=
  if is_upper c then (c + 32)%N else c.

Definition toUpperCase (s : jsstring) : jsstring := map upper_cu s.
Definition toLowerCase (s : jsstring) : jsstring := map lower_cu s.

(** *** Substrings, [split] with a string separator, [join] *)

(** [S.substring(p, q)] for [p <= q]. *)
Definition substring (s : jsstring) (p q : nat) : jsstring :=
  firstn (q - p) (skipn p s).

(** The loop shared by [String.prototype.split] and
    [RegExp.prototype[Symbol.split]]: [p] is the end of the last match,
    [q] the position tried next, [A] the parts collected so far.  The
    matcher, tried at [q], gives the end of the match and the captures to
    insert.  [None] means the fuel ran out before the loop ended. *)
Fixpoint split_loop (matcher : nat -> option (nat * list jsstring))
    (s : jsstring) (fuel p q : nat) (A : list jsstring)
  : option (list jsstring) :=
  match fuel with
  | O => None
  | S fuel' =>
      if length s <=? q then Some (A ++ [substring s p (length s)])
      else
        match matcher q with
        | None => split_loop matcher s fuel' p (q + 1) A
        | Some (e0, caps) =>
            let e := Nat.min e0 (length s) in
            if e =? p then split_loop matcher s fuel' p (q + 1) A
            else split_loop matcher s fuel' e e (A ++ [substring s p q] ++ caps)
        end
  end.

(** The parts the loop produces from position [p] on: the text up to the
    leftmost match at or after [p], the captures of that match, and so on
    from its end; after the last match, the rest of the string. *)
Inductive chunks (matcher : nat -> option (nat * list jsstring))
    (s : jsstring) : nat -> list jsstring -> Prop :=
  | chunks_rest p :
      (forall q, p <= q < length s -> matcher q = None) ->
      chunks matcher s p [substring s p (length s)]
  | chunks_match p q e caps tail :
      p <= q < length s ->
      (forall q', p <= q' < q -> matcher q' = None) ->
      matcher q = Some (e, caps) ->
      chunks matcher s e tail ->
      chunks matcher s p (substring s p q :: caps ++ tail).

(** Each iteration advances [q], or moves [p] up to a new [q] after which
    the next iteration advances. *)
Definition split_fuel (s : jsstring) : nat := 2 * length s + 2.

(** Is [r] a prefix of [s]? *)
Fixpoint starts_with (r s : jsstring) : bool :=
  match r, s with
  | [], _ => true
  | x :: r', c :: s' => cu_eqb x c && starts_with r' s'
  | _ :: _, [] => false
  end.

(** Does the separator [r] occur in [s] at position [q]? *)
Definition SplitMatcher (s r : jsstring) (q : nat)
  : option (nat * list jsstring) :=
  if starts_with r (skipn q s) then Some (q + length r, []) else None.

Definition bind {A B} (c : completion A) (k : A -> completion B)
  : completion B :=
  match c with
  | Normal a => k a
  | Throw e => Throw e
  | Unmodelled => Unmodelled
  end.

(** A loop of the model that ran out of its bound is outside the model. *)
Definition of_fuel {A} (o : option A) : completion A :=
  match o with Some a => Normal a | None => Unmodelled end.

(** [s.split(r)] for a string separator [r], with no limit. *)
Definition split (s r : jsstring) : completion (list jsstring) :=
  match s with
  | [] => match r with [] => Normal [] | _ :: _ => Normal [s] end
  | _ :: _ => of_fuel (split_loop (SplitMatcher s r) s (split_fuel s) 0 0 [])
  end.

(** [s.charCodeAt(0)]; [None] stands for NaN. *)
Definition charCodeAt0 (s : jsstring) : option N :=
  match s with c :: _ => Some c | [] => None end.

(** [parts.join(sep)]. *)
Fixpoint join (sep : jsstring) (parts : list jsstring) : jsstring :=
  match parts with
  | [] => []
  | [a] => a
  | a :: rest => a ++ sep ++ join sep rest
  end.

(** *** [String.fromCodePoint] *)

(** UTF-16 encoding of one code point. *)
Definition utf16 (cp : N) : jsstring :=
  if (cp <? 65536)%N then [cp]
  else
    let v := (cp - 65536)%N in
    [(55296 + N.shiftr v 10)%N; (56320 + N.land v 1023)%N].

(** [String.fromCodePoint(...cps)] throws a RangeError on an argument that
    is not an integer in 0..0x10FFFF; [None] stands for NaN. *)
Fixpoint fromCodePoint (cps : list (option N)) : completion jsstring :=
  match cps with
  | [] => Normal []
  | None :: _ => Throw (RangeError "Invalid code point NaN")
  | Some cp :: rest =>
      if (1114111 <? cp)%N then Throw (RangeError "Invalid code point")
      else bind (fromCodePoint rest) (fun s => Normal (utf16 cp ++ s))
  end.

(** *** Regular expressions

    The pattern language modelled: pattern characters, [.], a backslash
    before a syntax character, and capturing groups.  Quantifiers,
    alternation, classes, assertions and the other escapes are outside it:
    the constructor answers [Unmodelled] on them.  Patterns are read the
    way the engine reads them without the [u] flag, code unit by code
    unit. *)
Inductive regex :=
  | REmpty
  | RChar (c : code_unit)
  | RDot
  | RSeq (a b : regex)
  | RGroup (a : regex).

(** SyntaxCharacter of the pattern grammar: [^ $ \ . * + ? ( ) [ ] { } |]. *)
Definition syntax_chars : list code_unit :=
  [94; 36; 92; 46; 42; 43; 63; 40; 41; 91; 93; 123; 125; 124]%N.

Definition is_syntax_char (c : code_unit) : bool :=
  existsb (cu_eqb c) syntax_chars.

Definition seq_of (rs : list regex) : regex := fold_right RSeq REmpty rs.

(** The parser keeps the terms read so far in the current group ([cur],
    latest first) and those of the enclosing groups ([stack]). *)
Fixpoint parse_go (stack : list (list regex)) (cur : list regex)
    (p : jsstring) : completion regex :=
  match p with
  | [] =>
      match stack with
      | [] => Normal (seq_of (rev cur))
      | _ :: _ => Throw (SyntaxError "Unterminated group")
      end
  | c :: p' =>
      if cu_eqb c 92%N then
        match p' with
        | [] => Throw (SyntaxError "\ at end of pattern")
        | d :: p'' =>
            if is_syntax_char d then parse_go stack (RChar d :: cur) p''
            else Unmodelled
        end
      else if cu_eqb c 40%N then parse_go (cur :: stack) [] p'
      else if cu_eqb c 41%N then
        match stack with
        | [] => Throw (SyntaxError "Unmatched ')'")
        | outer :: stack' =>
            parse_go stack' (RGroup (seq_of (rev cur)) :: outer) p'
        end
      else if cu_eqb c 46%N then parse_go stack (RDot :: cur) p'
      else if is_syntax_char c then Unmodelled
      else parse_go stack (RChar c :: cur) p'
  end.

Definition parse_pattern (p : jsstring) : completion regex :=
  parse_go [] [] p.

Record RegExp := { ast : regex; global : bool; ignoreCase : bool }.

(** Flags: [g] and [i] are modelled; a repeated flag or a letter that is
    no flag is a SyntaxError. *)
Fixpoint parse_flags (fs : jsstring) (g i : bool) : completion (bool * bool) :=
  match fs with
  | [] => Normal (g, i)
  | f :: fs' =>
      if cu_eqb f 103%N then
        if g then Throw (SyntaxError "Invalid flags") else parse_flags fs' true i
      else if cu_eqb f 105%N then
        if i then Throw (SyntaxError "Invalid flags") else parse_flags fs' g true
      else if existsb (cu_eqb f) [100; 109; 115; 117; 118; 121]%N then Unmodelled
      else Throw (SyntaxError "Invalid flags")
  end.

(** [new RegExp(pattern, flags)]. *)
Definition RegExp_new (pattern flags : jsstring) : completion RegExp :=
  bind (parse_flags flags false false) (fun gi =>
  bind (parse_pattern pattern) (fun r =>
  Normal {| ast := r; global := fst gi; ignoreCase := snd gi |})).

(** Canonicalize, as the matcher compares code units. *)
Definition canonicalize (ic : bool) (c : code_unit) : code_unit :=
  if ic then upper_cu c else c.

Definition is_line_terminator (c : code_unit) : bool :=
  ((c =? 10) || (c =? 13) || (c =? 8232) || (c =? 8233))%N.

(** A match of [r] in [s] starting exactly at [i]: the end of the match and
    the captures, in the order of their opening parentheses. *)
Fixpoint rmatch (ic : bool) (r : regex) (s : jsstring) (i : nat)
  : option (nat * list jsstring) :=
  match r with
  | REmpty => Some (i, [])
  | RChar c =>
      match nth_error s i with
      | Some d =>
          if cu_eqb (canonicalize ic c) (canonicalize ic d)
          then Some (i + 1, []) else None
      | None => None
      end
  | RDot =>
      match nth_error s i with
      | Some d => if is_line_terminator d then None else Some (i + 1, [])
      | None => None
      end
  | RSeq a b =>
      match rmatch ic a s i with
      | Some (j, c1) =>
          match rmatch ic b s j with
          | Some (k, c2) => Some (k, c1 ++ c2)
          | None => None
          end
      | None => None
      end
  | RGroup a =>
      match rmatch ic a s i with
      | Some (j, c) => Some (j, substring s i j :: c)
      | None => None
      end
  end.

(** The code units [cs] stand at the head of [u], compared the way the
    matcher compares them. *)
Fixpoint occurs_at (ic : bool) (cs u : jsstring) : bool :=
  match cs, u with
  | [], _ => true
  | c :: cs', d :: u' =>
      cu_eqb (canonicalize ic c) (canonicalize ic d) && occurs_at ic cs' u'
  | _ :: _, [] => false
  end.

(** [s.split(re)], with no limit: the loop runs the sticky matcher at each
    position and inserts the captures after each part. *)
Definition RegExp_split (re : RegExp) (s : jsstring)
  : completion (list jsstring) :=
  let matcher := rmatch (ignoreCase re) (ast re) s in
  match s with
  | [] => match matcher 0 with Some _ => Normal [] | None => Normal [s] end
  | _ :: _ => of_fuel (split_loop matcher s (split_fuel s) 0 0 [])
  end.

End Js.

(** ** The debounce scheduler *)
Module Debounce.

Section Scheduler.

Variable A : Type.
Variable delayMs : N.

(** The pending timer of one wrapped invoker: its deadline and the
    argument it will pass, if it is armed. *)
Definition timer := option (N * A).

(** Modelled from the spec: [useDebounce] ([src/hooks/useDebounce] is not
    among the sources).  Calling [debounced(arg)] cancels any
    not-yet-fired prior scheduled call from the same wrapped invoker and
    arms a new timer. *)
Definition debounced (now : N) (arg : A) (t : timer) : timer :=
  Some (now + delayMs, arg)%N.

(** Modelled from the spec: when the timer fires with no intervening
    call, [fn(arg)] executes exactly once.  [elapse now t] gives the timer
    left at time [now] and the call of [fn] made on the way, with its
    time. *)
Definition elapse (now : N) (t : timer) : timer * option (N * A) :=
  match t with
  | Some (deadline, arg) =>
      if (deadline <=? now)%N then (None, Some (deadline, arg))
      else (t, None)
  | None => (None, None)
  end.

Definition record (o : option (N * A)) (fired : list (N * A)) :=
  match o with Some x => fired ++ [x] | None => fired end.

(** A sequence of calls [debounced(arg)] at given times, in order: the
    timer left and the executions of [fn] so far. *)
Fixpoint calls_from (cs : list (N * A)) (t : timer) (fired : list (N * A))
  : timer * list (N * A) :=
  match cs with
  | [] => (t, fired)
  | (now, arg) :: rest =>
      let (t', o) := elapse now t in
      calls_from rest (debounced now arg t') (record o fired)
  end.

(** The executions of [fn] up to time [horizon], the calls [cs] made. *)
Definition executions (cs : list (N * A)) (horizon : N) : list (N * A) :=
  let (t, fired) := calls_from cs None [] in
  record (snd (elapse horizon t)) fired.

(** A burst: each call comes before the timer of the previous one is
    due. *)
Fixpoint burst (cs : list (N * A)) : Prop :=
  match cs with
  | [] => True
  | (t1, _) :: rest =>
      match rest with
      | [] => True
      | (t2, _) :: _ => (t1 <= t2 < t1 + delayMs)%N /\ burst rest
      end
  end.

End Scheduler.

Arguments debounced {A} delayMs now arg t.
Arguments elapse {A} now t.
Arguments record {A} o fired.
Arguments calls_from {A} delayMs cs t fired.
Arguments executions {A} delayMs cs horizon.
Arguments burst {A} delayMs cs.

End Debounce.

(** ** The component *)
Module SearchBar.
Import Js.

(** *** Text transforms *)

(** [getFlagEmoji], lines 67-74. *)
Definition getFlagEmoji (countryCode : option jsstring) : completion jsstring :=
  match countryCode with
  | None => Normal []
  | Some cc =>
      if negb (truthy cc) then Normal []
      else
        bind (split (toUpperCase cc) []) (fun chars =>
        let codePoints :=
          map (fun char => option_map (N.add 127397) (charCodeAt0 char)) chars in
        fromCodePoint codePoints)
  end.

(** The character class of the [replace] in [highlightMatch]:
    [. * + ? ^ $ { } ( ) | [ ] \]. *)
Definition escape_class : list code_unit :=
  [46; 42; 43; 63; 94; 36; 123; 125; 40; 41; 124; 91; 93; 92]%N.

(** [query.replace(/[.*+?^${}()|[\]\\]/g, '\\$&')]: every code unit
    of the class is replaced by a backslash followed by itself. *)
Definition escapeQuery (query : jsstring) : jsstring :=
  flat_map (fun c => if existsb (cu_eqb c) escape_class then [92%N; c] else [c])
           query.

(** The expression the escaped query stands for: one capturing group
    around the code units of the query. *)
Definition literal_group (query : jsstring) : regex :=
  seq_of [RGroup (seq_of (map RChar query))].

(** What [highlightMatch] renders: the text itself, or one span per part,
    marked when it is a match. *)
Inductive rendered :=
  | Text (text : jsstring)
  | Spans (parts : list (jsstring * bool)).

Section Highlight.

(** The [RegExp] constructor in scope. *)
Variable mkRegExp : jsstring -> jsstring -> completion RegExp.

(** [highlightMatch], lines 76-95, with the errors given to
    [console.error]. *)
Definition highlightMatch_with (text query : jsstring)
  : list error * completion rendered :=
  if negb (truthy (trim query)) then ([], Normal (Text text))
  else
    let attempt :=
      let escapedQuery := escapeQuery query in
      bind (mkRegExp ([40%N] ++ escapedQuery ++ [41%N]) (lit "gi")) (fun re =>
      bind (RegExp_split re text) (fun parts =>
      Normal (Spans (map (fun part =>
        let isMatch := str_eqb (toLowerCase part) (toLowerCase query) in
        (part, isMatch)) parts))))
    in
    match attempt with
    | Throw error => ([error], Normal (Text text))
    | other => ([], other)
    end.

End Highlight.

Definition highlightMatch := highlightMatch_with RegExp_new.

(** [getLocationDetails], lines 97-103; [mainText] is [parts[0]],
    [None] standing for [undefined]. *)
Record LocationDetails := {
  mainText : option jsstring;
  secondaryText : jsstring
}.

Definition getLocationDetails (displayName : jsstring)
  : completion LocationDetails :=
  bind (split displayName (lit ", ")) (fun parts =>
  Normal {| mainText := nth_error parts 0;
            secondaryText := join (lit ", ") (tl parts) |}).

(** *** State and effects *)

Record Address := {
  country_code : option jsstring;
  postcode : option jsstring
}.

(** A result of the geocoding client; [place] stands for the fields the
    component passes through without reading them. *)
Record SearchResult := {
  display_name : jsstring;
  address : option Address;
  place : N
}.

(** The four [useState] cells, lines 14-17. *)
Record State := {
  searchQuery : jsstring;
  searchResults : list SearchResult;
  isLoading : bool;
  selectedIndex : Z
}.

Definition delayMs : N := 300.

(** The component's state and what it has done to its surroundings:
    the errors given to [console.error], the results passed to
    [onLocationSelect], the queries passed to [searchLocation] (a request
    is named by its position there), the requests not yet settled, and
    the debounce timer. *)
Record World := {
  ui : State;
  console : list error;
  selected : list SearchResult;
  requested : list jsstring;
  inflight : list nat;
  pending : Debounce.timer jsstring
}.

Definition initial : World :=
  {| ui := {| searchQuery := []; searchResults := []; isLoading := false;
              selectedIndex := (-1)%Z |};
     console := []; selected := []; requested := []; inflight := [];
     pending := None |}.

Definition with_ui (f : State -> State) (w : World) : World :=
  {| ui := f (ui w); console := console w; selected := selected w;
     requested := requested w; inflight := inflight w; pending := pending w |}.

(** Handlers run in the state, and complete normally or throw. *)
Definition M (A : Type) : Type := World -> completion A * World.

Definition ret {A} (a : A) : M A := fun w => (Normal a, w).

Definition mbind {A B} (m : M A) (k : A -> M B) : M B :=
  fun w =>
    match m w with
    | (Normal a, w') => k a w'
    | (Throw e, w') => (Throw e, w')
    | (Unmodelled, w') => (Unmodelled, w')
    end.

Notation "x <- m ;; k" := (mbind m (fun x => k))
  (at level 61, m at next level, right associativity).
Notation "m ;; k" := (mbind m (fun _ => k))
  (at level 61, right associativity).

(** [try { body } catch (error) { handler } finally { finalizer }]. *)
Definition try_catch_finally {A} (body : M A) (handler : error -> M A)
    (finalizer : M unit) : M A :=
  fun w =>
    let (r1, w1) := body w in
    let (r2, w2) :=
      match r1 with
      | Throw e => handler e w1
      | _ => (r1, w1)
      end in
    match finalizer w2 with
    | (Normal _, w3) => (r2, w3)
    | (Throw e, w3) => (Throw e, w3)
    | (Unmodelled, w3) => (Unmodelled, w3)
    end.

Definition setSearchQuery (v : jsstring) : M unit :=
  fun w => (Normal tt, with_ui (fun s =>
    {| searchQuery := v; searchResults := searchResults s;
       isLoading := isLoading s; selectedIndex := selectedIndex s |}) w).

Definition setSearchResults (v : list SearchResult) : M unit :=
  fun w => (Normal tt, with_ui (fun s =>
    {| searchQuery := searchQuery s; searchResults := v;
       isLoading := isLoading s; selectedIndex := selectedIndex s |}) w).

Definition setIsLoading (v : bool) : M unit :=
  fun w => (Normal tt, with_ui (fun s =>
    {| searchQuery := searchQuery s; searchResults := searchResults s;
       isLoading := v; selectedIndex := selectedIndex s |}) w).

Definition setSelectedIndex (v : Z) : M unit :=
  fun w => (Normal tt, with_ui (fun s =>
    {| searchQuery := searchQuery s; searchResults := searchResults s;
       isLoading := isLoading s; selectedIndex := v |}) w).

Definition console_error (e : error) : M unit :=
  fun w => (Normal tt,
    {| ui := ui w; console := console w ++ [e]; selected := selected w;
       requested := requested w; inflight := inflight w;
       pending := pending w |}).

(** The caller's callback, seen through the results it is given. *)
Definition onLocationSelect (r : SearchResult) : M unit :=
  fun w => (Normal tt,
    {| ui := ui w; console := console w; selected := selected w ++ [r];
       requested := requested w; inflight := inflight w;
       pending := pending w |}).

(** [searchLocation(query)]: the request goes out; its promise is settled
    by a later event. *)
Definition searchLocation (query : jsstring) : M nat :=
  fun w =>
    let id := length (requested w) in
    (Normal id,
     {| ui := ui w; console := console w; selected := selected w;
        requested := requested w ++ [query]; inflight := inflight w ++ [id];
        pending := pending w |}).

(** *** The search, lines 20-36

    The body of the function given to [useDebounce] runs up to its
    [await], and is resumed when the promise settles.  [None]: the body
    returned without a request. *)
Definition debouncedSearch_start (query : jsstring) : M (option nat) :=
  if negb (truthy (trim query)) then
    setSearchResults [] ;;
    ret None
  else
    setIsLoading true ;;
    id <- searchLocation query ;;
    ret (Some id).

(** From the [await] on, the promise settled with [response]. *)
Definition debouncedSearch_resume (response : completion (list SearchResult))
  : M unit :=
  try_catch_finally
    (results <- (fun w => (response, w)) ;;
     setSearchResults results)
    (fun error =>
       console_error error ;;
       setSearchResults [])
    (setIsLoading false).

(** [debouncedSearch(value)]: the wrapped invoker arms the timer. *)
Definition debouncedSearch (now : N) (value : jsstring) : M unit :=
  fun w => (Normal tt,
    {| ui := ui w; console := console w; selected := selected w;
       requested := requested w; inflight := inflight w;
       pending := Debounce.debounced delayMs now value (pending w) |}).

(** [handleInputChange], lines 38-43. *)
Definition handleInputChange (now : N) (value : jsstring) : M unit :=
  setSearchQuery value ;;
  setSelectedIndex (-1) ;;
  debouncedSearch now value.

(** [handleSelectResult], lines 45-50. *)
Definition handleSelectResult (result : SearchResult) : M unit :=
  onLocationSelect result ;;
  setSearchResults [] ;;
  setSearchQuery [] ;;
  setSelectedIndex (-1).

(** [onSelect], lines 56-60. *)
Definition onSelect : M unit :=
  fun w =>
    let i := selectedIndex (ui w) in
    if ((0 <=? i) && (i <? Z.of_nat (length (searchResults (ui w)))))%Z then
      match nth_error (searchResults (ui w)) (Z.to_nat i) with
      | Some result => handleSelectResult result w
      | None => (Normal tt, w)
      end
    else (Normal tt, w).

(** [onEscape], lines 61-64. *)
Definition onEscape : M unit :=
  setSearchResults [] ;;
  setSelectedIndex (-1).

Inductive key := ArrowDown | ArrowUp | Enter | Escape | OtherKey.

(** Modelled from the spec: [useKeyboardNavigation]
    ([src/hooks/useKeyboardNavigation] is not among the sources).
    ArrowDown moves forward, clamped at the last item; ArrowUp moves back,
    clamped at the first, and stays at [-1]; Enter selects; Escape clears;
    any transition when there is no result is a no-op.  These are the key
    transitions; the machine's rule for a new result list is
    [Selection.on_new_result_list]. *)
Definition handleKeyDown (k : key) : M unit :=
  fun w =>
    let itemCount := Z.of_nat (length (searchResults (ui w))) in
    let i := selectedIndex (ui w) in
    if (itemCount =? 0)%Z then (Normal tt, w)
    else
      match k with
      | ArrowDown => setSelectedIndex (Z.min (i + 1) (itemCount - 1)) w
      | ArrowUp =>
          if (0 <=? i)%Z then setSelectedIndex (Z.max (i - 1) 0) w
          else (Normal tt, w)
      | Enter => onSelect w
      | Escape => onEscape w
      | OtherKey => (Normal tt, w)
      end.

(** *** Events

    What happens to the component, each at its time: the user types,
    presses a key or clicks a result of the list; a request settles;
    time passes. *)
Inductive event :=
  | Input (value : jsstring)
  | Key (k : key)
  | Click (index : nat)
  | Settle (id : nat) (response : completion (list SearchResult))
  | Tick.

(** The timer, when due, runs the search body up to its [await]. *)
Definition fire_due (now : N) : M unit :=
  fun w =>
    match Debounce.elapse now (pending w) with
    | (t, Some (_, arg)) =>
        (debouncedSearch_start arg ;; ret tt)
          {| ui := ui w; console := console w; selected := selected w;
             requested := requested w; inflight := inflight w;
             pending := t |}
    | (_, None) => (Normal tt, w)
    end.

Definition settle (id : nat) (response : completion (list SearchResult))
  : M unit :=
  fun w =>
    if existsb (Nat.eqb id) (inflight w) then
      debouncedSearch_resume response
        {| ui := ui w; console := console w; selected := selected w;
           requested := requested w;
           inflight := filter (fun j => negb (Nat.eqb id j)) (inflight w);
           pending := pending w |}
    else (Normal tt, w).

Definition handle (now : N) (ev : event) : M unit :=
  match ev with
  | Input value => handleInputChange now value
  | Key k => handleKeyDown k
  | Click index =>
      fun w =>
        match nth_error (searchResults (ui w)) index with
        | Some result => handleSelectResult result w
        | None => (Normal tt, w)
        end
  | Settle id response => settle id response
  | Tick => ret tt
  end.

Definition step (w : World) (te : N * event) : World :=
  let (now, ev) := te in
  snd ((fire_due now ;; handle now ev) w).

Definition run (w : World) (trace : list (N * event)) : World :=
  fold_left step trace w.

(** *** Sample data *)

Definition R1 : list SearchResult :=
  [{| display_name := lit "Aachen, Germany"; address := None; place := 1 |}].

Definition R2 : list SearchResult :=
  [{| display_name := lit "Aberdeen, Scotland"; address := None; place := 2 |};
   {| display_name := lit "Abuja, Nigeria"; address := None; place := 3 |}].

(** ["a"] is typed, then ["ab"]; both searches go out; the answer to
    ["ab"] comes first, the answer to ["a"] after it. *)
Definition late_answer : list (N * event) :=
  [(0, Input (lit "a")); (350, Input (lit "ab"));
   (850, Settle 1 (Normal R2)); (1000, Settle 0 (Normal R1))]%N.

(** ["a"] is typed and its search goes out; a blank is typed while the
    request is in flight, and its search runs. *)
Definition blank_in_flight : list (N * event) :=
  [(0, Input (lit "a")); (400, Input (lit " ")); (700, Tick)]%N.

(** The answer to ["a"] is shown; ["ab"] is typed, and ArrowDown pressed
    twice in the list still shown, before the answer to ["ab"] comes. *)
Definition keys_before_answer : list (N * event) :=
  [(0, Input (lit "a")); (350, Settle 0 (Normal R2));
   (400, Input (lit "ab")); (450, Key ArrowDown); (460, Key ArrowDown);
   (850, Settle 1 (Normal R1))]%N.

End SearchBar.

(** ** What the component renders, lines 105-174 *)
Module Render.
Import Js SearchBar.

(** A number that is a natural number, as a template literal prints it. *)
Definition decimal (n : nat) : jsstring :=
  lit (NilEmpty.string_of_uint (Nat.to_uint n)).

(** [`result-${index}`]. *)
Definition result_id (index : nat) : jsstring := lit "result-" ++ decimal index.

(** Rendering runs the transforms: it can log, and it can throw. *)
Definition R (A : Type) : Type := list error * completion A.

Definition rret {A} (a : A) : R A := ([], Normal a).

Definition rbind {A B} (m : R A) (k : A -> R B) : R B :=
  match m with
  | (l, Normal a) => let (l', r) := k a in (l ++ l', r)
  | (l, Throw e) => (l, Throw e)
  | (l, Unmodelled) => (l, Unmodelled)
  end.

Definition lift {A} (c : completion A) : R A := ([], c).

(** One [button role="option"] of the list, lines 140-168: its id, whether
    it is the selected one, the flag, the two lines of text, and the
    postcode line when the result has a postcode. *)
Record OptionView := {
  option_id : jsstring;
  aria_selected : bool;
  flag : jsstring;
  main_line : rendered;
  secondary_line : rendered;
  postcode_line : option rendered
}.

(** The input with its ARIA attributes, the spinner, and the list, which
    is there only when there are results. *)
Record View := {
  input_value : jsstring;
  aria_expanded : bool;
  aria_activedescendant : option jsstring;
  spinner : bool;
  listbox : option (list OptionView)
}.

(** [result.address?.country_code]. *)
Definition address_country_code (result : SearchResult) : option jsstring :=
  match address result with
  | Some a => country_code a
  | None => None
  end.

(** [result.address?.postcode]. *)
Definition address_postcode (result : SearchResult) : option jsstring :=
  match address result with
  | Some a => postcode a
  | None => None
  end.

(** [result.address?.postcode && (...)]: the line is there for a postcode
    that is a string and not empty. *)
Definition render_postcode (result : SearchResult) (searchQuery : jsstring)
  : R (option rendered) :=
  match address result with
  | Some a =>
      match postcode a with
      | Some pc =>
          if truthy pc
          then rbind (highlightMatch pc searchQuery) (fun r => rret (Some r))
          else rret None
      | None => rret None
      end
  | None => rret None
  end.

(** The body of the [map] callback, lines 137-170.  [parts[0]] is a string
    for every name; the case that it is not is left out of the model. *)
Definition render_option (searchQuery : jsstring) (selectedIndex : Z)
    (index : nat) (result : SearchResult) : R OptionView :=
  rbind (lift (getLocationDetails (display_name result))) (fun details =>
  rbind (lift (getFlagEmoji (address_country_code result))) (fun flag =>
  rbind (match mainText details with
         | Some mainText => highlightMatch mainText searchQuery
         | None => lift Unmodelled
         end) (fun main =>
  rbind (highlightMatch (secondaryText details) searchQuery) (fun secondary =>
  rbind (render_postcode result searchQuery) (fun pc =>
  rret {| option_id := result_id index;
          aria_selected := (Z.of_nat index =? selectedIndex)%Z;
          flag := flag;
          main_line := main;
          secondary_line := secondary;
          postcode_line := pc |}))))).

(** [searchResults.map((result, index) => ...)], from [index] on. *)
Fixpoint render_options (searchQuery : jsstring) (selectedIndex : Z)
    (index : nat) (results : list SearchResult) : R (list OptionView) :=
  match results with
  | [] => rret []
  | result :: rest =>
      rbind (render_option searchQuery selectedIndex index result) (fun o =>
      rbind (render_options searchQuery selectedIndex (S index) rest) (fun os =>
      rret (o :: os)))
  end.

(** The [return] of the component. *)
Definition render (s : State) : R View :=
  let activedescendant :=
    if (0 <=? selectedIndex s)%Z
    then Some (result_id (Z.to_nat (selectedIndex s)))
    else None in
  rbind (match searchResults s with
         | [] => rret None
         | _ :: _ =>
             rbind (render_options (searchQuery s) (selectedIndex s) 0
                      (searchResults s))
                   (fun os => rret (Some os))
         end) (fun list =>
  rret {| input_value := searchQuery s;
          aria_expanded := (0 <? length (searchResults s));
          aria_activedescendant := activedescendant;
          spinner := isLoading s;
          listbox := list |}).

(** The characters a rendered line shows. *)
Definition shown (r : rendered) : jsstring :=
  match r with
  | Text text => text
  | Spans parts => concat (map fst parts)
  end.

(** A string of 16-bit code units. *)
Definition well_formed (s : jsstring) : Prop :=
  Forall (fun c => (c < 65536)%N) s.

(** A result as the geocoding service answers. *)
Definition Paris : SearchResult :=
  {| display_name := lit "Paris, France";
     address := Some {| country_code := Some (lit "fr");
                        postcode := Some (lit "75000") |};
     place := 7 |}.

End Render.

(** ** The selection state machine *)
Module Selection.
Import Js SearchBar.







End Selection.

Import Js SearchBar.

(** ** Facts about the runtime *)

Section SplitLoop.

Variable matcher : nat -> option (nat * list jsstring).
Variable s : jsstring.

(** A match is not empty and ends inside the string. *)
Hypothesis matcher_advances :
  forall q e caps, q < length s -> matcher q = Some (e, caps) ->
                   q < e <= length s.

Lemma split_loop_chunks fuel :
  forall p q A,
    p <= q -> length s - q < fuel ->
    (forall q', p <= q' < q -> matcher q' = None) ->
    exists tail,
      split_loop matcher s fuel p q A = Some (A ++ tail) /\
      chunks matcher s p tail.
Proof.
  induction fuel as [|fuel IH]; intros p q A Hpq Hfuel Hnone; [lia|].
  cbn [split_loop]. destruct (Nat.leb_spec (length s) q) as [Hend|Hin].
  - eexists; split; [reflexivity|]. apply chunks_rest.
    intros q' Hq'. apply Hnone. lia.
  - destruct (matcher q) as [[e0 caps]|] eqn:Hm.
    + destruct (matcher_advances q e0 caps Hin Hm) as [Hlt Hle].
      rewrite (Nat.min_l e0 (length s)) by lia.
      destruct (Nat.eqb_spec e0 p) as [->|_]; [lia|].
      destruct (IH e0 e0 (A ++ [substring s p q] ++ caps)) as (tail & Heq & Hch);
        [lia | lia | intros; lia |].
      exists (substring s p q :: caps ++ tail). split.
      * rewrite Heq. rewrite <- !app_assoc. reflexivity.
      * eapply chunks_match; eauto.
    + apply IH; [lia | lia |].
      intros q' Hq'. destruct (Nat.eq_dec q' q) as [->|]; [assumption|].
      apply Hnone. lia.
Qed.

End SplitLoop.

Lemma firstn_plus {A} (p k : nat) (l : list A) :
  firstn (p + k) l = firstn p l ++ firstn k (skipn p l).
Proof.
  revert l. induction p as [|p IH]; intros [|x l]; cbn;
    rewrite ?firstn_nil; try reflexivity.
  now rewrite IH.
Qed.

Lemma substring_from_start (s : jsstring) (p q : nat) :
  p <= q -> firstn p s ++ substring s p q = firstn q s.
Proof.
  intros H. unfold substring. rewrite <- firstn_plus. f_equal. lia.
Qed.

Lemma substring_to_end (s : jsstring) (p : nat) :
  substring s p (length s) = skipn p s.
Proof.
  unfold substring. apply firstn_all2. rewrite length_skipn. lia.
Qed.

Lemma substring_skipn (s : jsstring) (p q e : nat) :
  p <= q -> q <= e ->
  substring s p q ++ substring s q e ++ skipn e s = skipn p s.
Proof.
  intros Hpq Hqe. unfold substring.
  replace (skipn q s) with (skipn (q - p) (skipn p s))
    by (rewrite skipn_skipn; f_equal; lia).
  replace (skipn e s) with (skipn (e - q) (skipn (q - p) (skipn p s)))
    by (rewrite !skipn_skipn; f_equal; lia).
  now rewrite firstn_skipn, firstn_skipn.
Qed.

Lemma chunks_nonempty m s p tail : chunks m s p tail -> tail <> [].
Proof. destruct 1; discriminate. Qed.

(** When each match captures exactly the text it matched, the parts
    concatenate to the text. *)
Lemma chunks_concat m (s : jsstring) :
  (forall q e caps, q < length s -> m q = Some (e, caps) ->
     q <= e /\ concat caps = substring s q e) ->
  forall p tail, chunks m s p tail -> concat tail = skipn p s.
Proof.
  intros Hm p tail H. induction H as [p _|p q e caps tail Hq _ Hmq _ IH].
  - cbn. rewrite app_nil_r. apply substring_to_end.
  - destruct (Hm q e caps) as [Hle Hcaps]; [lia | assumption |].
    cbn. rewrite concat_app, IH, Hcaps.
    apply substring_skipn; lia.
Qed.

(** When each match is the separator and captures nothing, joining the
    parts with the separator gives the text back. *)
Lemma chunks_join m (s r : jsstring) :
  (forall q e caps, q < length s -> m q = Some (e, caps) ->
     q <= e /\ caps = [] /\ substring s q e = r) ->
  forall p tail, chunks m s p tail -> join r tail = skipn p s.
Proof.
  intros Hm p tail H. induction H as [p _|p q e caps tail Hq _ Hmq Hch IH].
  - cbn. apply substring_to_end.
  - destruct (Hm q e caps) as (Hle & -> & Hr); [lia | assumption |].
    cbn [app]. pose proof (chunks_nonempty _ _ _ _ Hch) as Hne.
    destruct tail as [|x tail]; [congruence|].
    change (join r (substring s p q :: x :: tail))
      with (substring s p q ++ r ++ join r (x :: tail)).
    rewrite IH, <- Hr. apply substring_skipn; lia.
Qed.

Lemma starts_with_firstn (r u : jsstring) :
  starts_with r u = true -> firstn (length r) u = r /\ length r <= length u.
Proof.
  revert u. induction r as [|x r IH]; intros u H.
  - split; [reflexivity | cbn; lia].
  - destruct u as [|c u]; [discriminate|]. cbn in H.
    apply andb_true_iff in H as [Hx Hr]. apply N.eqb_eq in Hx. subst c.
    destruct (IH _ Hr) as [Hf Hlen]. cbn. rewrite Hf. split; [reflexivity | lia].
Qed.

Lemma SplitMatcher_sound (s r : jsstring) q e caps :
  q <= length s ->
  SplitMatcher s r q = Some (e, caps) ->
  e = q + length r /\ caps = [] /\ substring s q e = r /\ e <= length s.
Proof.
  intros Hq. unfold SplitMatcher.
  destruct (starts_with r (skipn q s)) eqn:H; [|discriminate].
  intros [= <- <-]. apply starts_with_firstn in H as [Hf Hl].
  rewrite length_skipn in Hl. unfold substring.
  replace (q + length r - q) with (length r) by lia.
  repeat split; [assumption | lia].
Qed.

Lemma split_nonempty (s r : jsstring) :
  s <> [] ->
  split s r = of_fuel (split_loop (SplitMatcher s r) s (split_fuel s) 0 0 []).
Proof. destruct s; [congruence | reflexivity]. Qed.

(** [split] with a separator that is not empty: the first part is the text
    before the leftmost separator, and the parts joined give the text. *)
Lemma split_separator (s r : jsstring) :
  r <> [] ->
  exists first rest,
    split s r = Normal (first :: rest) /\
    join r (first :: rest) = s /\
    ((first = s /\ rest = [] /\
      forall q, q < length s -> starts_with r (skipn q s) = false) \/
     (exists q, q < length s /\ starts_with r (skipn q s) = true /\
        (forall q', q' < q -> starts_with r (skipn q' s) = false) /\
        first = firstn q s /\ join r rest = skipn (q + length r) s)).
Proof.
  intros Hr. destruct s as [|c s'] eqn:Es.
  - exists [], []. destruct r; [congruence|].
    repeat split. left. repeat split. cbn. intros; lia.
  - rewrite <- Es. rewrite split_nonempty by (rewrite Es; discriminate).
    assert (Hadv : forall q e caps, q < length s ->
               SplitMatcher s r q = Some (e, caps) -> q < e <= length s).
    { intros q e caps Hq H.
      apply SplitMatcher_sound in H as (-> & _ & _ & Hle); [|lia].
      destruct r; [congruence|]. cbn in *. lia. }
    assert (Hnone : forall q, SplitMatcher s r q = None ->
               starts_with r (skipn q s) = false).
    { intros q. unfold SplitMatcher. now destruct (starts_with r (skipn q s)). }
    destruct (split_loop_chunks _ _ Hadv (split_fuel s) 0 0 [])
      as (tail & Heq & Hch); [lia | unfold split_fuel; lia | intros; lia |].
    assert (Hjoin : join r tail = s).
    { transitivity (skipn 0 s); [|reflexivity]. eapply chunks_join; [|exact Hch].
      intros q e caps Hq H.
      apply SplitMatcher_sound in H as (-> & -> & Hs & _); [|lia].
      repeat split; [lia | assumption]. }
    rewrite Heq. cbn [app of_fuel]. clear Es Heq.
    inversion Hch as [p Hno Ep Et|p q e caps tail' Hq Hno Hm Hch' Ep Et];
      subst p tail.
    + exists (substring s 0 (length s)), []. cbn in Hjoin.
      repeat split; [assumption|].
      left. repeat split; [assumption|].
      intros q Hq. apply Hnone, Hno. lia.
    + apply SplitMatcher_sound in Hm as Hm'; [|lia].
      destruct Hm' as (-> & -> & Hs & Hle).
      exists (substring s 0 q), tail'. repeat split; [assumption|].
      right. exists q. repeat split.
      * lia.
      * unfold SplitMatcher in Hm. now destruct (starts_with r (skipn q s)).
      * intros q' Hq'. apply Hnone, Hno. lia.
      * unfold substring. now rewrite Nat.sub_0_r.
      * eapply chunks_join; [|exact Hch'].
        intros q0 e caps Hq0 H.
        apply SplitMatcher_sound in H as (-> & -> & Hs' & _); [|lia].
        repeat split; [lia | assumption].
Qed.

(** *** The pattern [highlightMatch] builds *)

Lemma escape_class_syntax (c : code_unit) :
  existsb (cu_eqb c) escape_class = is_syntax_char c.
Proof. unfold is_syntax_char, escape_class, syntax_chars. cbn [existsb]. btauto. Qed.

Lemma not_syntax_char (c d : code_unit) :
  is_syntax_char c = false -> is_syntax_char d = true -> cu_eqb c d = false.
Proof.
  intros Hc Hd. destruct (cu_eqb c d) eqn:E; [|reflexivity].
  apply N.eqb_eq in E. congruence.
Qed.

(** An escaped query is read as the sequence of its own code units. *)
Lemma parse_go_escapeQuery (query : jsstring) :
  forall stack cur rest,
    parse_go stack cur (escapeQuery query ++ rest)
    = parse_go stack (rev (map RChar query) ++ cur) rest.
Proof.
  induction query as [|c query IH]; intros stack cur rest; [reflexivity|].
  cbn [escapeQuery flat_map map rev]. fold (escapeQuery query).
  rewrite <- !app_assoc. cbn [app]. rewrite escape_class_syntax.
  destruct (is_syntax_char c) eqn:Hc.
  - cbn [app parse_go]. change (cu_eqb 92%N 92%N) with true. cbn iota.
    rewrite Hc. apply IH.
  - cbn [app parse_go].
    rewrite !(fun d => not_syntax_char c d Hc) by reflexivity. rewrite Hc. apply IH.
Qed.

Lemma RegExp_new_escaped (query : jsstring) :
  RegExp_new ([40%N] ++ escapeQuery query ++ [41%N]) (lit "gi")
  = Normal {| ast := literal_group query; global := true; ignoreCase := true |}.
Proof.
  unfold RegExp_new. change (parse_flags (lit "gi") false false)
    with (Normal (A := bool * bool) (true, true)).
  cbn [bind fst snd]. unfold parse_pattern. cbn [app parse_go].
  change (cu_eqb 40%N 92%N) with false. change (cu_eqb 40%N 40%N) with true.
  cbn iota.
  rewrite parse_go_escapeQuery. cbn [parse_go].
  change (cu_eqb 41%N 92%N) with false. change (cu_eqb 41%N 40%N) with false.
  change (cu_eqb 41%N 41%N) with true. cbn iota.
  rewrite app_nil_r, rev_involutive. reflexivity.
Qed.

Lemma nth_error_skipn_head {A} (l : list A) (i : nat) :
  nth_error l i = hd_error (skipn i l).
Proof.
  revert l. induction i as [|i IH]; intros [|x l]; cbn; auto.
Qed.

Lemma skipn_succ_tail {A} (l : list A) (i : nat) :
  skipn (i + 1) l = tl (skipn i l).
Proof.
  revert l. induction i as [|i IH]; intros [|x l]; cbn; auto.
Qed.

(** The matcher of a sequence of pattern characters compares them one by
    one with the text. *)
Lemma rmatch_literal ic (cs s : jsstring) :
  forall i,
    rmatch ic (seq_of (map RChar cs)) s i
    = if occurs_at ic cs (skipn i s) then Some (i + length cs, []) else None.
Proof.
  induction cs as [|c cs IH]; intros i.
  - cbn. now rewrite Nat.add_0_r.
  - cbn [map seq_of fold_right rmatch]. fold (seq_of (map RChar cs)).
    rewrite nth_error_skipn_head.
    pose proof (skipn_succ_tail s i) as Htl.
    destruct (skipn i s) as [|d u]; cbn [hd_error occurs_at]; [reflexivity|].
    destruct (cu_eqb (canonicalize ic c) (canonicalize ic d)); [|reflexivity].
    rewrite IH, Htl. cbn [tl andb length].
    destruct (occurs_at ic cs u); [|reflexivity].
    do 2 f_equal. lia.
Qed.

Lemma rmatch_literal_group ic (query s : jsstring) (i : nat) :
  rmatch ic (literal_group query) s i
  = if occurs_at ic query (skipn i s)
    then Some (i + length query, [substring s i (i + length query)])
    else None.
Proof.
  unfold literal_group. cbn [seq_of fold_right rmatch].
  fold (seq_of (map RChar query)). rewrite rmatch_literal.
  now destruct (occurs_at ic query (skipn i s)).
Qed.

Lemma occurs_at_length ic (cs u : jsstring) :
  occurs_at ic cs u = true -> length cs <= length u.
Proof.
  revert u. induction cs as [|c cs IH]; intros [|d u] H; cbn in *;
    try lia; try discriminate.
  apply andb_true_iff in H as [_ H]. apply IH in H. lia.
Qed.

Lemma RegExp_split_nonempty (re : RegExp) (s : jsstring) :
  s <> [] ->
  RegExp_split re s
  = of_fuel (split_loop (rmatch (ignoreCase re) (ast re) s) s (split_fuel s) 0 0 []).
Proof. destruct s; [congruence | reflexivity]. Qed.

(** Splitting on the pattern of a query that is not empty ends, and its
    parts are the chunks between the occurrences of the query, each
    occurrence a part of its own. *)
Lemma RegExp_split_literal (g : bool) (query text : jsstring) :
  query <> [] ->
  let re := {| ast := literal_group query; global := g; ignoreCase := true |} in
  exists parts,
    RegExp_split re text = Normal parts /\ concat parts = text /\
    (text <> [] -> chunks (rmatch true (literal_group query) text) text 0 parts).
Proof.
  intros Hq re.
  assert (Hadv : forall q e caps, q < length text ->
            rmatch true (literal_group query) text q = Some (e, caps) ->
            q < e <= length text /\ concat caps = substring text q e).
  { intros q e caps Hlt. rewrite rmatch_literal_group.
    destruct (occurs_at true query (skipn q text)) eqn:Ho; [|discriminate].
    intros [= <- <-]. apply occurs_at_length in Ho. rewrite length_skipn in Ho.
    destruct query; [congruence|]. cbn [length concat] in *.
    rewrite app_nil_r. split; [lia | reflexivity]. }
  destruct text as [|c text'] eqn:Et.
  - exists [[]]. unfold RegExp_split, re. cbn [ignoreCase ast].
    rewrite rmatch_literal_group. destruct query; [congruence|].
    cbn. repeat split. congruence.
  - rewrite <- Et in *.
    rewrite RegExp_split_nonempty by (rewrite Et; discriminate).
    unfold re. cbn [ignoreCase ast].
    destruct (split_loop_chunks (rmatch true (literal_group query) text) text
                (fun q e caps H1 H2 => proj1 (Hadv q e caps H1 H2))
                (split_fuel text) 0 0 [])
      as (parts & Heq & Hch); [lia | unfold split_fuel; lia | intros; lia |].
    exists parts. rewrite Heq. cbn [app of_fuel]. repeat split.
    + transitivity (skipn 0 text); [|reflexivity].
      eapply chunks_concat; [|exact Hch].
      intros q e caps H1 H2. destruct (Hadv q e caps H1 H2). split; [lia|assumption].
    + intros _. exact Hch.
Qed.

(** *** Case conversion on the Basic Latin letters *)

Ltac plain_term t :=
  lazymatch t with
  | context [if _ then _ else _] => fail
  | _ => idtac
  end.

Ltac case_ranges :=
  unfold upper_cu, lower_cu, is_letter, cu_eqb in *;
  unfold is_lower, is_upper in *;
  repeat (match goal with
          | H : context [N.leb ?a ?b] |- _ =>
              plain_term a; plain_term b; destruct (N.leb_spec a b)
          | |- context [N.leb ?a ?b] =>
              plain_term a; plain_term b; destruct (N.leb_spec a b)
          end; cbn [andb orb] in *).

Lemma upper_lower_cu (c : code_unit) : upper_cu (lower_cu c) = upper_cu c.
Proof. case_ranges; lia. Qed.

Lemma upper_upper_cu (c : code_unit) : upper_cu (upper_cu c) = upper_cu c.
Proof. case_ranges; lia. Qed.

Lemma upper_cu_letter (c : code_unit) :
  is_letter c = true -> (65 <= upper_cu c <= 90)%N.
Proof. intros H. case_ranges; try discriminate; lia. Qed.

(** Code units the matcher takes for equal have equal lower-case forms. *)
Lemma canonical_lower (c d : code_unit) :
  cu_eqb (canonicalize true c) (canonicalize true d) = true ->
  lower_cu d = lower_cu c.
Proof.
  unfold canonicalize. intros H. apply N.eqb_eq in H. revert H.
  case_ranges; lia.
Qed.

Lemma str_eqb_refl (a : jsstring) : str_eqb a a = true.
Proof.
  induction a as [|x a IH]; [reflexivity|].
  cbn. unfold cu_eqb. now rewrite N.eqb_refl.
Qed.

Lemma occurs_at_lower (query u : jsstring) :
  occurs_at true query u = true ->
  toLowerCase (firstn (length query) u) = toLowerCase query.
Proof.
  revert u. induction query as [|c query IH]; intros [|d u] H;
    try reflexivity; try discriminate.
  cbn in H. apply andb_true_iff in H as [Hc H].
  cbn. rewrite (canonical_lower _ _ Hc). f_equal. now apply IH.
Qed.

Lemma str_eqb_eq (a b : jsstring) : str_eqb a b = true -> a = b.
Proof.
  revert b. induction a as [|x a IH]; intros [|y b] H; try discriminate;
    [reflexivity|].
  cbn in H. apply andb_true_iff in H as [Hx H]. apply N.eqb_eq in Hx.
  f_equal; [assumption | now apply IH].
Qed.

Lemma lower_canonical (c d : code_unit) :
  lower_cu c = lower_cu d ->
  cu_eqb (canonicalize true c) (canonicalize true d) = true.
Proof.
  unfold canonicalize. intros H. apply N.eqb_eq. revert H.
  case_ranges; lia.
Qed.

(** A text with the lower-case form of the query is an occurrence of it. *)
Lemma lower_eq_occurs (query part : jsstring) :
  toLowerCase part = toLowerCase query -> occurs_at true query part = true.
Proof.
  revert part. induction query as [|c query IH]; intros [|d part] H;
    try discriminate; [reflexivity|].
  cbn in H. injection H as Hd H. cbn [occurs_at].
  rewrite (lower_canonical c d) by congruence. now apply IH.
Qed.

Lemma occurs_at_firstn (cs u : jsstring) (n : nat) :
  occurs_at true cs (firstn n u) = true -> occurs_at true cs u = true.
Proof.
  revert u n. induction cs as [|c cs IH]; intros u n H; [reflexivity|].
  destruct n as [|n]; [rewrite firstn_0 in H; discriminate|].
  destruct u as [|d u]; [discriminate|]. cbn in *.
  apply andb_true_iff in H as [Hc H]. rewrite Hc. now apply (IH u n).
Qed.

(** An occurrence of the code units, as the matcher finds it, is a text of
    the same length with the same lower-case form. *)
Lemma occurs_at_lower_eqb (cs u : jsstring) :
  occurs_at true cs u
  = (length cs <=? length u)
    && str_eqb (toLowerCase (firstn (length cs) u)) (toLowerCase cs).
Proof.
  destruct (occurs_at true cs u) eqn:E.
  - pose proof (occurs_at_length true cs u E) as Hl.
    rewrite (occurs_at_lower cs u E), str_eqb_refl.
    destruct (Nat.leb_spec (length cs) (length u)); [reflexivity | lia].
  - destruct (Nat.leb_spec (length cs) (length u)); [|reflexivity].
    destruct (str_eqb (toLowerCase (firstn (length cs) u)) (toLowerCase cs))
      eqn:S; [|reflexivity].
    apply str_eqb_eq, lower_eq_occurs, occurs_at_firstn in S. congruence.
Qed.

(** *** [split] into code units *)

Lemma substring_one (s : jsstring) (p : nat) x rest :
  skipn p s = x :: rest -> substring s p (p + 1) = [x].
Proof.
  intros H. unfold substring. rewrite H.
  replace (p + 1 - p) with 1 by lia. reflexivity.
Qed.

Lemma split_loop_units (s : jsstring) (n : nat) :
  forall p fuel A,
    length s - p = S n -> 2 * n + 1 <= fuel ->
    split_loop (SplitMatcher s []) s fuel p (p + 1) A
    = Some (A ++ map (fun c => [c]) (skipn p s)).
Proof.
  induction n as [|n IH]; intros p fuel A Hlen Hfuel.
  - destruct fuel as [|fuel]; [lia|]. cbn [split_loop].
    destruct (Nat.leb_spec (length s) (p + 1)); [|lia].
    rewrite substring_to_end.
    assert (Hl : length (skipn p s) = 1) by (rewrite length_skipn; lia).
    destruct (skipn p s) as [|x [|y l]]; try discriminate. reflexivity.
  - destruct fuel as [|[|fuel]]; try lia. cbn [split_loop].
    destruct (Nat.leb_spec (length s) (p + 1)); [lia|].
    unfold SplitMatcher at 1. cbn [starts_with length].
    rewrite Nat.add_0_r, Nat.min_l by lia.
    destruct (Nat.eqb_spec (p + 1) p); [lia|].
    destruct (Nat.leb_spec (length s) (p + 1)); [lia|].
    unfold SplitMatcher at 1. cbn [starts_with length].
    rewrite Nat.add_0_r, Nat.min_l by lia. rewrite Nat.eqb_refl.
    rewrite IH by lia.
    pose proof (skipn_succ_tail s p) as Htl.
    assert (Hl : length (skipn p s) = S (S n)) by (rewrite length_skipn; lia).
    destruct (skipn p s) as [|x rest] eqn:Hs; [discriminate|].
    rewrite (substring_one _ _ _ _ Hs), Htl. cbn [tl map app].
    now rewrite <- !app_assoc.
Qed.

Lemma split_units (s : jsstring) :
  split s [] = Normal (map (fun c => [c]) s).
Proof.
  destruct s as [|c s'] eqn:Es; [reflexivity|]. rewrite <- Es.
  rewrite split_nonempty by (rewrite Es; discriminate).
  unfold split_fuel.
  replace (2 * length s + 2) with (S (2 * length s' + 3))
    by (rewrite Es; cbn [length]; lia).
  cbn [split_loop]. destruct (Nat.leb_spec (length s) 0) as [H|_].
  { rewrite Es in H. cbn in H. lia. }
  unfold SplitMatcher at 1. cbn [starts_with length Nat.add Nat.min Nat.eqb].
  rewrite (split_loop_units s (length s') 0 _ []).
  - reflexivity.
  - rewrite Es. cbn. lia.
  - lia.
Qed.

(** [getFlagEmoji] on any code: the code points are the upper-cased code
    units moved by the offset. *)
Lemma getFlagEmoji_code (cc : jsstring) :
  getFlagEmoji (Some cc)
  = fromCodePoint (map (fun c => Some (127397 + upper_cu c)%N) cc).
Proof.
  unfold getFlagEmoji. destruct cc as [|c cc]; [reflexivity|].
  cbn [truthy negb]. rewrite split_units. cbn [bind].
  unfold toUpperCase. rewrite !map_map. reflexivity.
Qed.

(** ** The text transforms *)

Lemma trimStart_blank (s : jsstring) :
  trimStart s = [] <-> forallb is_white s = true.
Proof.
  induction s as [|c s IH]; [now split|].
  cbn. destruct (is_white c); cbn; [exact IH|]. split; discriminate.
Qed.

(** The trimmed form is empty exactly for the empty string and the strings
    of whitespace only. *)
Lemma trim_blank (s : jsstring) :
  trim s = [] <-> forallb is_white s = true.
Proof.
  unfold trim, trimEnd. split.
  - intros H. apply trimStart_blank.
    destruct (trimStart s) as [|c u] eqn:E; [reflexivity|].
    assert (Hw : is_white c = false).
    { destruct s as [|d s]; [discriminate|]. revert E. clear.
      revert d. induction s as [|x s IH]; intros d; cbn.
      - destruct (is_white d) eqn:Hd; [discriminate|]. now intros [= <- _].
      - destruct (is_white d) eqn:Hd; [apply IH | now intros [= <- _]]. }
    apply (f_equal (@rev _)) in H. rewrite rev_involutive in H.
    change (rev []) with (@nil code_unit) in H.
    apply trimStart_blank in H. rewrite forallb_forall in H.
    rewrite (H c) in Hw; [discriminate|].
    apply in_rev. rewrite rev_involutive. now left.
  - intros H. apply trimStart_blank in H. now rewrite H.
Qed.

Lemma trim_truthy_nonempty (query : jsstring) :
  truthy (trim query) = true -> query <> [].
Proof. intros H ->. discriminate. Qed.

(** On a query that is not blank, [highlightMatch] takes the path through
    [split]: it gives one span per part, the parts are the chunks of the
    text around the occurrences of the query, nothing is logged. *)
Lemma highlightMatch_spans (text query : jsstring) :
  truthy (trim query) = true ->
  exists parts,
    highlightMatch text query
    = ([], Normal (Spans (map (fun part =>
         (part, str_eqb (toLowerCase part) (toLowerCase query))) parts))) /\
    concat parts = text /\
    (text <> [] -> chunks (rmatch true (literal_group query) text) text 0 parts).
Proof.
  intros Hq. pose proof (trim_truthy_nonempty query Hq) as Hne.
  destruct (RegExp_split_literal true query text Hne) as (parts & Hs & Hc & Hch).
  exists parts. unfold highlightMatch, highlightMatch_with.
  rewrite Hq. cbn [negb]. rewrite RegExp_new_escaped. cbn [bind].
  rewrite Hs. cbn [bind]. auto.
Qed.

(** C5.  [highlightMatch] never throws.  Whatever the query, the pattern
    built from it is accepted and stands for the code units of the query
    themselves, in one capturing group, so that no code unit of the query
    acts as a metacharacter.  In Basic Latin text the pattern matches at a
    position exactly when the text there has the length of the query and
    its lower-case form, that is, when the query stands there letter case
    apart; the match is then the text the call marks.  The call returns
    normally with nothing logged; and whatever a [RegExp] constructor
    does, the call does not throw: when the constructor throws, the text
    is returned unmarked and the error logged.  ["St."] is marked in
    ["St. Louis, MO"], also when typed as ["sT."], and is not found in
    ["Stx Louis"]. *)
Theorem highlightMatch_never_throws (text query : jsstring) :
  (exists r, highlightMatch text query = ([], Normal r)) /\
  RegExp_new ([40%N] ++ escapeQuery query ++ [41%N]) (lit "gi")
  = Normal {| ast := literal_group query; global := true; ignoreCase := true |} /\
  (forallb is_basic_latin (query ++ text) = true ->
   forall i,
     rmatch true (literal_group query) text i
     = if (length query <=? length text - i)
          && str_eqb (toLowerCase (substring text i (i + length query)))
                     (toLowerCase query)
       then Some (i + length query, [substring text i (i + length query)])
       else None) /\
  (forall mk e, snd (highlightMatch_with mk text query) <> Throw e) /\
  (forall mk e,
     mk ([40%N] ++ escapeQuery query ++ [41%N]) (lit "gi") = Throw e ->
     highlightMatch_with mk text query
     = (if truthy (trim query) then [e] else [], Normal (Text text))) /\
  highlightMatch (lit "St. Louis, MO") (lit "St.")
  = ([], Normal (Spans [([], false); (lit "St.", true);
                        (lit " Louis, MO", false)])) /\
  highlightMatch (lit "St. Louis, MO") (lit "sT.")
  = ([], Normal (Spans [([], false); (lit "St.", true);
                        (lit " Louis, MO", false)])) /\
  highlightMatch (lit "Stx Louis") (lit "St.")
  = ([], Normal (Spans [(lit "Stx Louis", false)])).
Proof.
  split; [|split; [|split; [|split; [|split; [|split; [|split]]]]]].
  - destruct (truthy (trim query)) eqn:Hq.
    + destruct (highlightMatch_spans text query Hq) as (parts & H & _). eauto.
    + exists (Text text). unfold highlightMatch, highlightMatch_with.
      now rewrite Hq.
  - apply RegExp_new_escaped.
  - intros _ i. rewrite rmatch_literal_group, occurs_at_lower_eqb.
    rewrite length_skipn. unfold substring.
    replace (i + length query - i) with (length query) by lia.
    reflexivity.
  - intros mk e. unfold highlightMatch_with.
    destruct (negb (truthy (trim query))); [discriminate|].
    destruct (mk _ _) as [re| |]; cbn [bind snd]; try discriminate.
    destruct (RegExp_split re text); cbn [bind snd]; discriminate.
  - intros mk e H. unfold highlightMatch_with.
    destruct (truthy (trim query)); [|reflexivity].
    cbn [negb]. rewrite H. reflexivity.
  - vm_compute. reflexivity.
  - vm_compute. reflexivity.
  - vm_compute. reflexivity.
Qed.

(** C10.  When [highlightMatch] returns spans, their texts, concatenated
    in order, are the text it was given. *)
Theorem highlightMatch_parts_concat (text query : jsstring) log spans :
  highlightMatch text query = (log, Normal (Spans spans)) ->
  concat (map fst spans) = text.
Proof.
  intros H. destruct (truthy (trim query)) eqn:Hq.
  - destruct (highlightMatch_spans text query Hq) as (parts & Hp & Hc & _).
    rewrite Hp in H. injection H as _ <-.
    rewrite map_map. cbn [fst]. now rewrite map_id.
  - unfold highlightMatch, highlightMatch_with in H. rewrite Hq in H.
    discriminate.
Qed.

Lemma highlightMatch_parts_concat_witness :
  highlightMatch (lit "St. Louis, MO") (lit "st.")
  = ([], Normal (Spans [([], false); (lit "St.", true);
                        (lit " Louis, MO", false)])) /\
  concat (map fst [([], false); (lit "St.", true); (lit " Louis, MO", false)])
  = lit "St. Louis, MO".
Proof.
  assert (H : highlightMatch (lit "St. Louis, MO") (lit "st.")
              = ([], Normal (Spans [([], false); (lit "St.", true);
                                    (lit " Louis, MO", false)])))
    by (vm_compute; reflexivity).
  split; [exact H | exact (highlightMatch_parts_concat _ _ _ _ H)].
Defined.

(** C6.  For a code of two letters, [getFlagEmoji] gives the two regional
    indicators: the code points of the upper-cased letters moved by 127397,
    each in the range of the regional indicator symbols, one after the
    other.  The letter case of the code does not matter, and without a code
    the result is the empty string. *)
Theorem getFlagEmoji_two_letters (c1 c2 : code_unit) :
  is_letter c1 = true -> is_letter c2 = true ->
  getFlagEmoji (Some [c1; c2])
  = Normal (utf16 (127397 + upper_cu c1) ++ utf16 (127397 + upper_cu c2)) /\
  (127462 <= 127397 + upper_cu c1 <= 127487)%N /\
  (127462 <= 127397 + upper_cu c2 <= 127487)%N /\
  getFlagEmoji (Some (toUpperCase [c1; c2])) = getFlagEmoji (Some [c1; c2]) /\
  getFlagEmoji (Some (toLowerCase [c1; c2])) = getFlagEmoji (Some [c1; c2]) /\
  getFlagEmoji None = Normal [] /\
  getFlagEmoji (Some (lit "us")) = getFlagEmoji (Some (lit "US")).
Proof.
  intros H1 H2.
  pose proof (upper_cu_letter _ H1) as B1.
  pose proof (upper_cu_letter _ H2) as B2.
  repeat split; try lia.
  - rewrite getFlagEmoji_code. cbn [map fromCodePoint].
    destruct (N.ltb_spec 1114111 (127397 + upper_cu c1)); [lia|].
    destruct (N.ltb_spec 1114111 (127397 + upper_cu c2)); [lia|].
    cbn [bind]. now rewrite app_nil_r.
  - rewrite !getFlagEmoji_code. cbn [toUpperCase map].
    now rewrite !upper_upper_cu.
  - rewrite !getFlagEmoji_code. cbn [toLowerCase map].
    now rewrite !upper_lower_cu.
Qed.

Lemma getFlagEmoji_two_letters_witness :
  getFlagEmoji (Some (lit "us")) = Normal [55356; 56826; 55356; 56824]%N.
Proof.
  destruct (getFlagEmoji_two_letters 117%N 115%N eq_refl eq_refl) as [H _].
  exact H.
Defined.

(** C7.  [getLocationDetails] splits the name on [", "]: [mainText] is the
    first part and [secondaryText] the other parts joined with [", "].
    Nothing else is changed: the parts joined give the name back; without
    a separator [mainText] is the whole name and [secondaryText] is empty,
    otherwise [mainText] is the text before the leftmost separator and
    [secondaryText] the text after it. *)
Theorem getLocationDetails_parts :
  (forall displayName,
     exists first rest,
       split displayName (lit ", ") = Normal (first :: rest) /\
       getLocationDetails displayName
       = Normal {| mainText := Some first;
                   secondaryText := join (lit ", ") rest |} /\
       join (lit ", ") (first :: rest) = displayName /\
       ((first = displayName /\ rest = [] /\
         forall q, q < length displayName ->
                   starts_with (lit ", ") (skipn q displayName) = false) \/
        (exists q,
           q < length displayName /\
           starts_with (lit ", ") (skipn q displayName) = true /\
           (forall q', q' < q ->
                       starts_with (lit ", ") (skipn q' displayName) = false) /\
           first = firstn q displayName /\
           join (lit ", ") rest = skipn (q + 2) displayName))) /\
  getLocationDetails (lit "Paris, " ++ [206%N] ++ lit "le-de-France, France")
  = Normal {| mainText := Some (lit "Paris");
              secondaryText := [206%N] ++ lit "le-de-France, France" |}.
Proof.
  split; [|vm_compute; reflexivity].
  intros displayName.
  destruct (split_separator displayName (lit ", ")) as (first & rest & Hs & Hj & Hc);
    [discriminate|].
  exists first, rest. repeat split; try assumption.
  unfold getLocationDetails. rewrite Hs. reflexivity.
Qed.

(** ** The debounce scheduler *)

Section DebounceFacts.

Context {A : Type}.
Variable delay : N.

Lemma last_cons_default {B} (l : list B) :
  forall x d, last (x :: l) d = last l x.
Proof.
  induction l as [|y l IH]; intros x d; [reflexivity|].
  change (last (x :: y :: l) d) with (last (y :: l) d).
  now rewrite !IH.
Qed.

Lemma calls_from_burst (cs : list (N * A)) :
  forall t0 a0 fired,
    Debounce.burst delay ((t0, a0) :: cs) ->
    Debounce.calls_from delay cs (Some (t0 + delay, a0)%N) fired
    = (Some (fst (last cs (t0, a0)) + delay, snd (last cs (t0, a0)))%N, fired).
Proof.
  induction cs as [|[t1 a1] cs IH]; intros t0 a0 fired Hb; [reflexivity|].
  destruct Hb as [Ht Hb]. cbn [Debounce.calls_from Debounce.elapse].
  destruct (N.leb_spec (t0 + delay) t1); [lia|].
  cbn [Debounce.record]. unfold Debounce.debounced.
  rewrite IH by exact Hb. now rewrite last_cons_default.
Qed.

Lemma executions_burst (cs : list (N * A)) t a horizon :
  Debounce.burst delay (cs ++ [(t, a)]) ->
  Debounce.executions delay (cs ++ [(t, a)]) horizon
  = if (t + delay <=? horizon)%N then [((t + delay)%N, a)] else [].
Proof.
  intros Hb. unfold Debounce.executions.
  destruct (cs ++ [(t, a)]) as [|[t0 a0] rest] eqn:E.
  { now destruct cs. }
  cbn [Debounce.calls_from Debounce.elapse Debounce.record].
  unfold Debounce.debounced. rewrite calls_from_burst by exact Hb.
  assert (Hl : last rest (t0, a0) = (t, a)).
  { rewrite <- (last_cons_default rest (t0, a0) (t0, a0)), <- E.
    apply last_last. }
  rewrite Hl. cbn [fst snd Debounce.elapse].
  now destruct (t + delay <=? horizon)%N.
Qed.

End DebounceFacts.

(** C8.  In a burst of calls of the debounced invoker, each made before
    the timer of the one before is due, the wrapped function is executed
    once and only once: one delay after the last call, with the argument
    of the last call.  Before that time it is not executed at all, and the
    calls before the last never run. *)
Theorem debounce_burst_fires_once {A : Type}
    (cs : list (N * A)) (t : N) (a : A) (horizon : N) :
  Debounce.burst SearchBar.delayMs (cs ++ [(t, a)]) ->
  SearchBar.delayMs = 300%N /\
  Debounce.executions SearchBar.delayMs (cs ++ [(t, a)]) horizon
  = if (t + 300 <=? horizon)%N then [((t + 300)%N, a)] else [].
Proof.
  intros Hb. split; [reflexivity|]. now rewrite executions_burst.
Qed.

Lemma debounce_burst_fires_once_witness :
  Debounce.executions SearchBar.delayMs
    [(0, lit "p"); (50, lit "pa"); (100, lit "par"); (150, lit "pari")]%N 450%N
  = [(450%N, lit "pari")] /\
  Debounce.executions SearchBar.delayMs
    [(0, lit "p"); (50, lit "pa"); (100, lit "par"); (150, lit "pari")]%N 449%N
  = [].
Proof.
  split.
  - refine (proj2 (debounce_burst_fires_once
             [(0, lit "p"); (50, lit "pa"); (100, lit "par")]%N
             150%N (lit "pari") 450%N _)).
    cbn. repeat split; lia.
  - refine (proj2 (debounce_burst_fires_once
             [(0, lit "p"); (50, lit "pa"); (100, lit "par")]%N
             150%N (lit "pari") 449%N _)).
    cbn. repeat split; lia.
Defined.

(** ** The search and the selection *)

Lemma fire_due_normal (now : N) (w : World) :
  fst (fire_due now w) = Normal tt.
Proof.
  unfold fire_due. destruct (Debounce.elapse now (pending w)) as [t [[d arg]|]];
    [|reflexivity].
  unfold debouncedSearch_start. now destruct (negb (truthy (trim arg))).
Qed.

Lemma fire_due_inflight (now : N) (w : World) (id : nat) :
  In id (inflight w) -> In id (inflight (snd (fire_due now w))).
Proof.
  intros H. unfold fire_due.
  destruct (Debounce.elapse now (pending w)) as [t [[d arg]|]]; [|assumption].
  unfold debouncedSearch_start. destruct (negb (truthy (trim arg))); cbn.
  - assumption.
  - apply in_or_app. now left.
Qed.

Lemma existsb_eqb_In (id : nat) (l : list nat) :
  In id l -> existsb (Nat.eqb id) l = true.
Proof.
  intros H. apply existsb_exists. exists id. split; [assumption|].
  apply Nat.eqb_refl.
Qed.

(** C1, as the code has it.  A response is applied when it settles,
    whichever request it answers: the results shown after a request
    settles with a list are that list, for every request in flight and
    whatever was issued since. *)
Theorem settled_response_is_applied
    (w : World) (now : N) (id : nat) (results : list SearchResult) :
  In id (inflight w) ->
  searchResults (ui (step w (now, Settle id (Normal results)))) = results /\
  searchResults (ui (snd (debouncedSearch_resume (Normal results) w))) = results.
Proof.
  intros Hin. split; [|reflexivity].
  unfold step, mbind. pose proof (fire_due_normal now w) as Hn.
  pose proof (fire_due_inflight now w id Hin) as Hi.
  destruct (fire_due now w) as [r w1]. cbn [fst snd] in *. subst r.
  cbn [handle]. unfold settle. rewrite (existsb_eqb_In _ _ Hi). reflexivity.
Qed.

Lemma settled_response_is_applied_witness :
  searchResults (ui (step
    (run initial [(0, Input (lit "a")); (350, Input (lit "ab")); (700, Tick)]%N)
    (1000%N, Settle 0 (Normal R1)))) = R1.
Proof.
  refine (proj1 (settled_response_is_applied _ 1000%N 0 R1 _)).
  vm_compute. left. reflexivity.
Defined.

(** C1, as stated, fails: the response to ["a"] settles after the response
    to the newer query ["ab"], and replaces its results; the same with the
    two searches run one after the other and resumed in the other order. *)
Lemma stale_response_overwrites :
  requested (run initial late_answer) = [lit "a"; lit "ab"] /\
  searchQuery (ui (run initial late_answer)) = lit "ab" /\
  searchResults (ui (run initial late_answer)) = R1 /\
  searchResults (ui (snd (debouncedSearch_resume (Normal R1)
    (snd (debouncedSearch_resume (Normal R2)
      (snd (debouncedSearch_start (lit "ab")
        (snd (debouncedSearch_start (lit "a") initial))))))))) = R1 /\
  R1 <> R2.
Proof. repeat split; try (vm_compute; reflexivity). discriminate. Qed.

(** C2.  [handleSelectResult] gives the result to [onLocationSelect], once,
    and then the query is empty, there are no results and nothing is
    selected; everything else is as before. *)
Theorem handleSelectResult_commits (w : World) (result : SearchResult) :
  handleSelectResult result w
  = (Normal tt,
     {| ui := {| searchQuery := []; searchResults := [];
                 isLoading := isLoading (ui w); selectedIndex := (-1)%Z |};
        console := console w;
        selected := selected w ++ [result];
        requested := requested w;
        inflight := inflight w;
        pending := pending w |}) /\
  searchQuery (ui initial) = [] /\ searchResults (ui initial) = [] /\
  selectedIndex (ui initial) = (-1)%Z.
Proof. repeat split. Qed.

(** C3, as the code has it.  On a text that is blank the search clears the
    results and returns: no request is made, and the loading flag is left
    as it was. *)
Theorem blank_query_clears_results (text : jsstring) (w : World) :
  trim text = [] ->
  debouncedSearch_start text w
  = (Normal None,
     {| ui := {| searchQuery := searchQuery (ui w); searchResults := [];
                 isLoading := isLoading (ui w);
                 selectedIndex := selectedIndex (ui w) |};
        console := console w;
        selected := selected w;
        requested := requested w;
        inflight := inflight w;
        pending := pending w |}).
Proof. intros H. unfold debouncedSearch_start. rewrite H. reflexivity. Qed.

Lemma blank_query_clears_results_witness :
  fst (debouncedSearch_start (lit "  ") initial) = Normal None /\
  requested (snd (debouncedSearch_start (lit "  ") initial)) = [].
Proof.
  rewrite (blank_query_clears_results (lit "  ") initial eq_refl).
  split; reflexivity.
Defined.

(** C3, as stated, fails: a blank text searched while a request is in
    flight leaves the loading flag set. *)
Lemma blank_query_leaves_loading_set :
  trim (lit " ") = [] /\
  inflight (run initial blank_in_flight) = [0] /\
  searchResults (ui (run initial blank_in_flight)) = [] /\
  isLoading (ui (run initial blank_in_flight)) = true /\
  isLoading (ui (snd (debouncedSearch_start (lit " ")
    (snd (debouncedSearch_start (lit "a") initial))))) = true.
Proof. repeat split. Qed.

(** C4.  A search on a text that is not blank sets the loading flag and
    makes one request.  When the request fails, with any error, the
    results are cleared, the error is logged, the loading flag is reset and
    the search completes normally: nothing is thrown, and nothing else
    changes. *)
Theorem failed_search_clears_results
    (text : jsstring) (w w' : World) (e : error) :
  truthy (trim text) = true ->
  fst (debouncedSearch_start text w) = Normal (Some (length (requested w))) /\
  isLoading (ui (snd (debouncedSearch_start text w))) = true /\
  requested (snd (debouncedSearch_start text w)) = requested w ++ [text] /\
  debouncedSearch_resume (Throw e) w'
  = (Normal tt,
     {| ui := {| searchQuery := searchQuery (ui w'); searchResults := [];
                 isLoading := false;
                 selectedIndex := selectedIndex (ui w') |};
        console := console w' ++ [e];
        selected := selected w';
        requested := requested w';
        inflight := inflight w';
        pending := pending w' |}).
Proof.
  intros H. unfold debouncedSearch_start. rewrite H. repeat split.
Qed.

Lemma failed_search_clears_results_witness :
  snd (debouncedSearch_resume (Throw (Rejected "Network error"))
         (snd (debouncedSearch_start (lit "a") initial)))
  = {| ui := {| searchQuery := []; searchResults := []; isLoading := false;
                selectedIndex := (-1)%Z |};
       console := [Rejected "Network error"]; selected := [];
       requested := [lit "a"]; inflight := [0]; pending := None |}.
Proof.
  destruct (failed_search_clears_results (lit "a") initial
              (snd (debouncedSearch_start (lit "a") initial))
              (Rejected "Network error") eq_refl) as (_ & _ & _ & H).
  rewrite H. reflexivity.
Defined.



(** ** More about the text transforms *)

(** An occurrence inside a part of the text is an occurrence in the text,
    and starts inside the part. *)
Lemma occurs_in_substring (query s : jsstring) (p q i : nat) :
  query <> [] ->
  occurs_at true query (skipn i (substring s p q)) = true ->
  occurs_at true query (skipn (p + i) s) = true /\ p + i < q /\ p + i < length s.
Proof.
  intros Hq H. unfold substring in H.
  rewrite skipn_firstn_comm, skipn_skipn in H.
  pose proof (occurs_at_length _ _ _ H) as Hl.
  rewrite length_firstn, length_skipn in Hl.
  apply occurs_at_firstn in H. rewrite Nat.add_comm in H.
  destruct query; [congruence|]. cbn [length] in Hl.
  split; [assumption | lia].
Qed.

(** Every part [split] gives for the pattern of a query is either one
    occurrence of the query, or a text without any occurrence of it. *)
Lemma chunks_occurrences (query s : jsstring) :
  query <> [] ->
  forall p parts,
    chunks (rmatch true (literal_group query) s) s p parts ->
    Forall (fun part =>
              (occurs_at true query part = true /\ length part = length query) \/
              (forall i, occurs_at true query (skipn i part) = false)) parts.
Proof.
  intros Hq p parts H.
  assert (Hplain : forall p q,
            (forall q', p <= q' < q -> q' < length s ->
                        rmatch true (literal_group query) s q' = None) ->
            forall i, occurs_at true query (skipn i (substring s p q)) = false).
  { intros p0 q0 Hno i.
    destruct (occurs_at true query (skipn i (substring s p0 q0))) eqn:E;
      [|reflexivity].
    apply occurs_in_substring in E as (E & Hlt & Hlen); [|assumption].
    specialize (Hno (p0 + i)). rewrite rmatch_literal_group, E in Hno.
    discriminate Hno; lia. }
  induction H as [p Hno|p q e caps tail Hpq Hno Hm _ IH].
  - constructor; [|constructor]. right. apply Hplain.
    intros q' Hq' Hl. apply Hno. lia.
  - constructor.
    { right. apply Hplain. intros q' Hq' _. now apply Hno. }
    rewrite rmatch_literal_group in Hm.
    destruct (occurs_at true query (skipn q s)) eqn:E; [|discriminate].
    injection Hm as <- <-. cbn [app]. constructor; [|exact IH].
    left. pose proof (occurs_at_length _ _ _ E) as Hl.
    rewrite length_skipn in Hl. unfold substring.
    replace (q + length query - q) with (length query) by lia.
    split.
    + clear - E. revert E. generalize (skipn q s) as u.
      induction query as [|c query IH]; intros u E; [reflexivity|].
      destruct u as [|d u]; [discriminate|]. cbn in *.
      apply andb_true_iff in E as [-> E]. now apply IH.
    + rewrite length_firstn, length_skipn. lia.
Qed.

(** Without an occurrence of the query, [split] gives the text in one
    part. *)
Lemma RegExp_split_no_match (g : bool) (query text : jsstring) :
  query <> [] ->
  (forall i, occurs_at true query (skipn i text) = false) ->
  RegExp_split {| ast := literal_group query; global := g; ignoreCase := true |}
               text
  = Normal [text].
Proof.
  intros Hq Hno. destruct text as [|c text'] eqn:Et.
  - unfold RegExp_split. cbn [ignoreCase ast]. rewrite rmatch_literal_group.
    destruct query; [congruence | reflexivity].
  - rewrite <- Et in *.
    destruct (RegExp_split_literal g query text Hq) as (parts & Hs & Hc & Hch).
    rewrite Hs. f_equal.
    specialize (Hch ltac:(rewrite Et; discriminate)).
    inversion Hch as [p _ Ep Et'|p q e caps tail _ _ Hm _ Ep Et'].
    + now rewrite substring_to_end.
    + rewrite rmatch_literal_group, Hno in Hm. discriminate.
Qed.

Lemma highlightMatch_no_match (text query : jsstring) :
  truthy (trim query) = true ->
  (forall i, occurs_at true query (skipn i text) = false) ->
  highlightMatch text query = ([], Normal (Spans [(text, false)])).
Proof.
  intros Hq Hno. pose proof (trim_truthy_nonempty query Hq) as Hne.
  unfold highlightMatch, highlightMatch_with. rewrite Hq. cbn [negb].
  rewrite RegExp_new_escaped. cbn [bind].
  rewrite (RegExp_split_no_match true query text Hne Hno). cbn [bind map].
  destruct (str_eqb (toLowerCase text) (toLowerCase query)) eqn:E;
    [|reflexivity].
  apply str_eqb_eq, lower_eq_occurs in E. specialize (Hno 0).
  cbn [skipn] in Hno. congruence.
Qed.

(** X1.  [highlightMatch] gives the text back unmarked for a query that is
    empty or all whitespace, and spans for every other query; in both
    cases nothing is logged. *)
Theorem highlightMatch_blank_or_spans (text query : jsstring) :
  exists spans,
    highlightMatch text query
    = ([], Normal (if forallb is_white query then Text text else Spans spans)).
Proof.
  destruct (forallb is_white query) eqn:Hw.
  - exists []. apply trim_blank in Hw.
    unfold highlightMatch, highlightMatch_with. now rewrite Hw.
  - assert (Hq : truthy (trim query) = true).
    { destruct (trim query) eqn:E; [|reflexivity].
      apply trim_blank in E. congruence. }
    destruct (highlightMatch_spans text query Hq) as (parts & H & _).
    eauto.
Qed.

(** X2.  In Basic Latin text the marked spans are the occurrences of the
    query and nothing of it is left unmarked: a marked span is the query,
    letter case apart, and an unmarked span holds no occurrence of the
    query at any position. *)
Theorem highlightMatch_marks_every_occurrence
    (text query : jsstring) log spans :
  forallb is_basic_latin (query ++ text) = true ->
  highlightMatch text query = (log, Normal (Spans spans)) ->
  Forall (fun span : jsstring * bool =>
            if snd span
            then toLowerCase (fst span) = toLowerCase query
            else forall i, occurs_at true query (skipn i (fst span)) = false)
         spans.
Proof.
  intros _ H. destruct (truthy (trim query)) eqn:Hq.
  2:{ unfold highlightMatch, highlightMatch_with in H. rewrite Hq in H.
      discriminate. }
  pose proof (trim_truthy_nonempty query Hq) as Hne.
  destruct text as [|c text'] eqn:Et.
  - rewrite highlightMatch_no_match in H; [|assumption|].
    + injection H as _ <-. constructor; [|constructor]. cbn.
      intros i. destruct i; cbn; now destruct query.
    + intros i. destruct i; cbn; now destruct query.
  - rewrite <- Et in *.
    destruct (highlightMatch_spans text query Hq) as (parts & Hp & _ & Hch).
    rewrite Hp in H. injection H as _ <-.
    specialize (Hch ltac:(rewrite Et; discriminate)).
    apply (chunks_occurrences query text Hne) in Hch.
    apply Forall_map. eapply Forall_impl; [|exact Hch].
    intros part [[Ho Hl]|Hno]; cbn [fst snd].
    + assert (E : toLowerCase part = toLowerCase query).
      { rewrite <- (occurs_at_lower query part Ho), <- Hl.
        now rewrite firstn_all. }
      replace (str_eqb (toLowerCase part) (toLowerCase query)) with true
        by (rewrite E; symmetry; apply str_eqb_refl).
      exact E.
    + destruct (str_eqb (toLowerCase part) (toLowerCase query)) eqn:E;
        [|exact Hno].
      apply str_eqb_eq, lower_eq_occurs in E. specialize (Hno 0).
      cbn [skipn] in Hno. congruence.
Qed.

Lemma highlightMatch_marks_every_occurrence_witness :
  Forall (fun span : jsstring * bool =>
            if snd span
            then toLowerCase (fst span) = toLowerCase (lit "st")
            else forall i, occurs_at true (lit "st") (skipn i (fst span)) = false)
         [([], false); (lit "St", true); (lit ". Augu", false);
          (lit "st", true); (lit "ine", false)].
Proof.
  apply (highlightMatch_marks_every_occurrence
           (lit "St. Augustine") (lit "st") []).
  - vm_compute. reflexivity.
  - vm_compute. reflexivity.
Defined.

Lemma caseless_separator (c d : code_unit) :
  (c = 44 \/ c = 32)%N ->
  cu_eqb (canonicalize true c) (canonicalize true d) = true -> cu_eqb c d = true.
Proof.
  unfold canonicalize. intros Hc H. apply N.eqb_eq in H. apply N.eqb_eq.
  revert H. destruct Hc; subst c; case_ranges; lia.
Qed.

Lemma occurs_separator (u : jsstring) :
  occurs_at true (lit ", ") u = true -> starts_with (lit ", ") u = true.
Proof.
  destruct u as [|d1 [|d2 u]]; try discriminate.
  - cbn. now rewrite andb_false_r.
  - change (lit ", ") with [44%N; 32%N]. cbn [occurs_at starts_with].
    intros H. apply andb_true_iff in H as [H1 H2].
    apply andb_true_iff in H2 as [H2 _].
    rewrite (caseless_separator 44%N d1), (caseless_separator 32%N d2); auto.
Qed.

Lemma occurs_at_app (a r u : jsstring) :
  occurs_at true (a ++ r) u = true ->
  occurs_at true r (skipn (length a) u) = true.
Proof.
  revert u. induction a as [|c a IH]; intros u H; [exact H|].
  destruct u as [|d u]; [discriminate|]. cbn in H.
  apply andb_true_iff in H as [_ H]. now apply IH.
Qed.

Lemma occurs_at_prefix (r b u : jsstring) :
  occurs_at true (r ++ b) u = true -> occurs_at true r u = true.
Proof.
  revert u. induction r as [|c r IH]; intros u H; [reflexivity|].
  destruct u as [|d u]; [discriminate|]. cbn in *.
  apply andb_true_iff in H as [-> H]. now apply IH.
Qed.

Lemma starts_with_in_firstn (r u : jsstring) (n : nat) :
  starts_with r (firstn n u) = true ->
  starts_with r u = true /\ length r <= n.
Proof.
  revert u n. induction r as [|x r IH]; intros u n H.
  - split; [reflexivity | cbn; lia].
  - destruct n as [|n]; [rewrite firstn_0 in H; discriminate|].
    destruct u as [|c u]; [discriminate|]. cbn in *.
    apply andb_true_iff in H as [-> H]. apply IH in H as [-> Hl].
    split; [reflexivity | lia].
Qed.

(** X3.  A query that holds the separator [", "] is never marked in the
    main text of a result: the main text is the name up to its first
    separator, so it is shown as one unmarked span. *)
Theorem separator_query_unmarked_in_mainText
    (displayName query a b : jsstring) (details : LocationDetails) :
  query = a ++ lit ", " ++ b ->
  getLocationDetails displayName = Normal details ->
  exists main,
    mainText details = Some main /\
    highlightMatch main query = ([], Normal (Spans [(main, false)])).
Proof.
  intros -> Hd.
  destruct (split_separator displayName (lit ", ")) as (first & rest & Hs & _ & Hc);
    [discriminate|].
  unfold getLocationDetails in Hd. rewrite Hs in Hd. injection Hd as <-.
  exists first. split; [reflexivity|]. apply highlightMatch_no_match.
  { destruct (trim (a ++ lit ", " ++ b)) eqn:E; [|reflexivity].
    apply trim_blank in E. rewrite forallb_app in E.
    apply andb_true_iff in E as [_ E]. discriminate. }
  assert (Hsep : forall k, k < length first ->
            starts_with (lit ", ") (skipn k first) = false).
  { destruct Hc as [(-> & _ & Hno)|(q & Hq & _ & Hno & -> & _)].
    - exact Hno.
    - intros k Hk. rewrite length_firstn in Hk.
      destruct (starts_with (lit ", ") (skipn k (firstn q displayName))) eqn:E;
        [|reflexivity].
      rewrite skipn_firstn_comm in E.
      apply starts_with_in_firstn in E as [E Hl].
      rewrite Hno in E by lia. discriminate. }
  intros i.
  destruct (occurs_at true (a ++ lit ", " ++ b) (skipn i first)) eqn:E;
    [|reflexivity].
  apply occurs_at_app in E. rewrite skipn_skipn in E.
  apply occurs_at_prefix in E.
  pose proof (occurs_at_length _ _ _ E) as Hl. rewrite length_skipn in Hl.
  apply occurs_separator in E. rewrite Hsep in E; [discriminate|].
  cbn in Hl. lia.
Qed.

Lemma separator_query_unmarked_in_mainText_witness :
  exists main,
    Some (lit "Paris") = Some main /\
    highlightMatch main (lit "Paris, France")
    = ([], Normal (Spans [(main, false)])).
Proof.
  exact (separator_query_unmarked_in_mainText
           (lit "Paris, France") (lit "Paris, France") (lit "Paris")
           (lit "France")
           {| mainText := Some (lit "Paris"); secondaryText := lit "France" |}
           eq_refl eq_refl).
Defined.

(** *** The flag of any code *)

Lemma upper_cu_le (c : code_unit) : (upper_cu c <= c)%N.
Proof. case_ranges; lia. Qed.

(** A code point above the Basic Multilingual Plane is recovered from its
    surrogate pair. *)
Lemma utf16_pair (cp : N) :
  (65536 <= cp)%N ->
  exists hi lo,
    utf16 cp = [hi; lo] /\
    (cp = 65536 + 1024 * (hi - 55296) + (lo - 56320))%N /\
    (55296 <= hi)%N /\ (56320 <= lo)%N.
Proof.
  intros H. unfold utf16. destruct (N.ltb_spec cp 65536); [lia|].
  eexists _, _. split; [reflexivity|].
  change 1023%N with (N.ones 10). rewrite N.land_ones, N.shiftr_div_pow2.
  change (2 ^ 10)%N with 1024%N.
  pose proof (N.div_mod (cp - 65536) 1024 ltac:(lia)) as Hdm.
  revert Hdm. generalize ((cp - 65536) / 1024)%N ((cp - 65536) mod 1024)%N.
  intros d m Hdm. lia.
Qed.

Lemma utf16_inj (x y : N) :
  (65536 <= x)%N -> (65536 <= y)%N -> utf16 x = utf16 y -> x = y.
Proof.
  intros Hx Hy H.
  destruct (utf16_pair x Hx) as (h1 & l1 & E1 & V1 & _).
  destruct (utf16_pair y Hy) as (h2 & l2 & E2 & V2 & _).
  rewrite E1, E2 in H. injection H as -> ->. lia.
Qed.

Lemma fromCodePoint_flags (cc : jsstring) :
  Render.well_formed cc ->
  fromCodePoint (map (fun c => Some (127397 + upper_cu c)%N) cc)
  = Normal (flat_map (fun c => utf16 (127397 + upper_cu c)) cc).
Proof.
  induction 1 as [|c cc Hc _ IH]; [reflexivity|].
  cbn [map fromCodePoint flat_map]. pose proof (upper_cu_le c).
  destruct (N.ltb_spec 1114111 (127397 + upper_cu c)); [lia|].
  now rewrite IH.
Qed.

Lemma flags_length (u : jsstring) :
  length (flat_map (fun c => utf16 (127397 + c)) u) = 2 * length u.
Proof.
  induction u as [|c u IH]; [reflexivity|].
  cbn [flat_map]. rewrite length_app, IH.
  destruct (utf16_pair (127397 + c) ltac:(lia)) as (hi & lo & E & _).
  rewrite E. cbn [length]. lia.
Qed.

Lemma basic_latin_well_formed (s : jsstring) :
  forallb is_basic_latin s = true -> Render.well_formed s.
Proof.
  intros H. apply Forall_forall. intros c Hc.
  rewrite forallb_forall in H. specialize (H c Hc).
  unfold is_basic_latin in H. apply N.ltb_lt in H. lia.
Qed.

(** X4.  [getFlagEmoji] throws on no string, of whatever length.  For a
    code of Basic Latin code units it gives one regional-indicator pair
    for each code unit, upper-cased: two code units of flag for each code
    unit of the code. *)
Theorem getFlagEmoji_total (cc : jsstring) :
  Render.well_formed cc ->
  (exists flag, getFlagEmoji (Some cc) = Normal flag) /\
  (forallb is_basic_latin cc = true ->
   getFlagEmoji (Some cc)
   = Normal (flat_map (fun c => utf16 (127397 + c)) (toUpperCase cc)) /\
   forall flag, getFlagEmoji (Some cc) = Normal flag ->
                length flag = 2 * length cc).
Proof.
  intros Hw. rewrite getFlagEmoji_code, (fromCodePoint_flags cc Hw).
  assert (E : flat_map (fun c => utf16 (127397 + upper_cu c)) cc
              = flat_map (fun c => utf16 (127397 + c)) (toUpperCase cc)).
  { unfold toUpperCase. clear. induction cc as [|c cc IH]; [reflexivity|].
    cbn [flat_map map]. now rewrite IH. }
  rewrite E. split; [eauto|]. intros _. split; [reflexivity|].
  intros flag H.
  assert (Hf : flag = flat_map (fun c => utf16 (127397 + c)) (toUpperCase cc))
    by congruence.
  rewrite Hf, flags_length. unfold toUpperCase. now rewrite length_map.
Qed.

Lemma getFlagEmoji_total_witness :
  getFlagEmoji (Some (lit "gbr"))
  = Normal [55356; 56812; 55356; 56807; 55356; 56823]%N.
Proof.
  refine (proj1 (proj2 (getFlagEmoji_total (lit "gbr") _) eq_refl)).
  repeat constructor.
Defined.

(** X5.  Basic Latin codes with the same flag are the same code, letter
    case apart: [getFlagEmoji] sends codes that differ after upper-casing
    to different strings. *)
Theorem getFlagEmoji_injective (a b : jsstring) :
  forallb is_basic_latin a = true -> forallb is_basic_latin b = true ->
  getFlagEmoji (Some a) = getFlagEmoji (Some b) ->
  toUpperCase a = toUpperCase b.
Proof.
  intros La Lb.
  pose proof (basic_latin_well_formed a La) as Ha.
  pose proof (basic_latin_well_formed b Lb) as Hb.
  rewrite !getFlagEmoji_code.
  rewrite (fromCodePoint_flags a Ha), (fromCodePoint_flags b Hb).
  intros H0.
  assert (H : flat_map (fun c => utf16 (127397 + upper_cu c)) a
              = flat_map (fun c => utf16 (127397 + upper_cu c)) b)
    by congruence.
  clear La Lb Ha Hb H0. revert b H.
  induction a as [|x a IH]; intros [|y b] H; try reflexivity.
  - cbn [flat_map] in H.
    destruct (utf16_pair (127397 + upper_cu y) ltac:(lia)) as (hi & lo & E & _).
    rewrite E in H. discriminate.
  - cbn [flat_map] in H.
    destruct (utf16_pair (127397 + upper_cu x) ltac:(lia)) as (hi & lo & E & _).
    rewrite E in H. discriminate.
  - cbn [flat_map] in H.
    destruct (utf16_pair (127397 + upper_cu x) ltac:(lia))
      as (h1 & l1 & E1 & V1 & _).
    destruct (utf16_pair (127397 + upper_cu y) ltac:(lia))
      as (h2 & l2 & E2 & V2 & _).
    rewrite E1, E2 in H. cbn [app] in H.
    assert (Hh : h1 = h2) by congruence.
    assert (Hl : l1 = l2) by congruence.
    assert (Hr : flat_map (fun c => utf16 (127397 + upper_cu c)) a
                 = flat_map (fun c => utf16 (127397 + upper_cu c)) b)
      by congruence.
    cbn [toUpperCase map]. f_equal; [lia|]. now apply IH.
Qed.

Lemma getFlagEmoji_injective_witness :
  toUpperCase (lit "De") = toUpperCase (lit "dE").
Proof.
  apply getFlagEmoji_injective.
  - reflexivity.
  - reflexivity.
  - vm_compute. reflexivity.
Defined.

(** ** More about the search and the selection *)

Lemma step_eq (w : World) (now : N) (ev : event) :
  step w (now, ev) = snd (handle now ev (snd (fire_due now w))).
Proof.
  unfold step, mbind. pose proof (fire_due_normal now w) as Hn.
  destruct (fire_due now w) as [r w1]. cbn [fst snd] in *. now subst r.
Qed.

(** What the timer does when the time comes to [now]: nothing, or the
    search of its argument, which clears the results for a blank text and
    makes a request otherwise. *)
Lemma fire_due_cases (now : N) (w : World) :
  snd (fire_due now w) = w \/
  exists d a,
    pending w = Some (d, a) /\ (d <= now)%N /\
    pending (snd (fire_due now w)) = None /\
    selected (snd (fire_due now w)) = selected w /\
    console (snd (fire_due now w)) = console w /\
    searchQuery (ui (snd (fire_due now w))) = searchQuery (ui w) /\
    selectedIndex (ui (snd (fire_due now w))) = selectedIndex (ui w) /\
    ((truthy (trim a) = false /\
      requested (snd (fire_due now w)) = requested w /\
      inflight (snd (fire_due now w)) = inflight w /\
      isLoading (ui (snd (fire_due now w))) = isLoading (ui w) /\
      searchResults (ui (snd (fire_due now w))) = []) \/
     (truthy (trim a) = true /\
      requested (snd (fire_due now w)) = requested w ++ [a] /\
      inflight (snd (fire_due now w)) = inflight w ++ [length (requested w)] /\
      isLoading (ui (snd (fire_due now w))) = true /\
      searchResults (ui (snd (fire_due now w))) = searchResults (ui w))).
Proof.
  unfold fire_due. destruct (pending w) as [[d a]|] eqn:Ep; cbn [Debounce.elapse];
    [|now left].
  destruct (N.leb_spec d now) as [Hd|_]; [|now left].
  right. exists d, a. unfold debouncedSearch_start.
  destruct (truthy (trim a)); cbn; repeat split; auto;
    [right | left]; repeat split.
Qed.

(** Every handler but the settling of a request leaves the requests and
    the loading flag alone. *)
Lemma handle_keeps_requests (now : N) (ev : event) (w : World) :
  (forall id response, ev <> Settle id response) ->
  requested (snd (handle now ev w)) = requested w /\
  inflight (snd (handle now ev w)) = inflight w /\
  isLoading (ui (snd (handle now ev w))) = isLoading (ui w).
Proof.
  intros Hev. destruct ev as [value|k|index|id response|]; cbn [handle].
  - repeat split.
  - unfold handleKeyDown, onSelect.
    destruct (Z.of_nat (length (searchResults (ui w))) =? 0)%Z; [repeat split|].
    destruct k; try (repeat split; fail).
    + destruct (0 <=? selectedIndex (ui w))%Z; repeat split.
    + destruct ((0 <=? selectedIndex (ui w)) &&
                (selectedIndex (ui w) <? Z.of_nat (length (searchResults (ui w)))))%Z;
        [|repeat split].
      destruct (nth_error _ _); repeat split.
  - destruct (nth_error _ _); repeat split.
  - now destruct (Hev id response).
  - repeat split.
Qed.

Lemma settle_effect (id : nat) (response : completion (list SearchResult))
    (w : World) :
  requested (snd (settle id response w)) = requested w /\
  pending (snd (settle id response w)) = pending w /\
  selected (snd (settle id response w)) = selected w /\
  searchQuery (ui (snd (settle id response w))) = searchQuery (ui w) /\
  selectedIndex (ui (snd (settle id response w))) = selectedIndex (ui w) /\
  ((existsb (Nat.eqb id) (inflight w) = false /\ snd (settle id response w) = w) \/
   (existsb (Nat.eqb id) (inflight w) = true /\
    isLoading (ui (snd (settle id response w))) = false /\
    inflight (snd (settle id response w))
    = filter (fun j => negb (Nat.eqb id j)) (inflight w))).
Proof.
  unfold settle. destruct (existsb (Nat.eqb id) (inflight w)).
  - destruct response; cbn; repeat split; right; repeat split.
  - repeat split. now left.
Qed.

(** X6.  [onSelect] commits the result at the selected index when the
    index is inside the list, and does nothing at all when it is not:
    at [-1], and at an index left over from a longer list. *)
Theorem onSelect_bounds (w : World) :
  ((0 <= selectedIndex (ui w) < Z.of_nat (length (searchResults (ui w))))%Z ->
   exists result,
     nth_error (searchResults (ui w)) (Z.to_nat (selectedIndex (ui w)))
     = Some result /\
     onSelect w = handleSelectResult result w) /\
  ((selectedIndex (ui w) < 0 \/
    Z.of_nat (length (searchResults (ui w))) <= selectedIndex (ui w))%Z ->
   onSelect w = (Normal tt, w)).
Proof.
  unfold onSelect. split.
  - intros [H0 H1].
    destruct (Z.leb_spec 0 (selectedIndex (ui w))); [|lia].
    destruct (Z.ltb_spec (selectedIndex (ui w))
                (Z.of_nat (length (searchResults (ui w))))); [|lia].
    cbn [andb].
    destruct (nth_error (searchResults (ui w)) (Z.to_nat (selectedIndex (ui w))))
      as [result|] eqn:E.
    + now exists result.
    + apply nth_error_None in E. lia.
  - intros H.
    destruct (Z.leb_spec 0 (selectedIndex (ui w)));
      destruct (Z.ltb_spec (selectedIndex (ui w))
                  (Z.of_nat (length (searchResults (ui w)))));
      cbn [andb]; try reflexivity; lia.
Qed.

Lemma onSelect_bounds_witness :
  onSelect (run initial keys_before_answer)
  = (Normal tt, run initial keys_before_answer).
Proof.
  apply (proj2 (onSelect_bounds (run initial keys_before_answer))).
  right. vm_compute. discriminate.
Defined.

Lemma handle_pending (now : N) (ev : event) (w : World) :
  pending (snd (handle now ev w)) = pending w \/
  exists value, ev = Input value /\
    pending (snd (handle now ev w)) = Some ((now + delayMs)%N, value).
Proof.
  destruct ev as [value|k|index|id response|]; cbn [handle].
  - right. now exists value.
  - left. unfold handleKeyDown, onSelect.
    destruct (Z.of_nat (length (searchResults (ui w))) =? 0)%Z; [reflexivity|].
    destruct k; try reflexivity.
    + now destruct (0 <=? selectedIndex (ui w))%Z.
    + destruct ((0 <=? selectedIndex (ui w)) &&
                (selectedIndex (ui w) <? Z.of_nat (length (searchResults (ui w)))))%Z;
        [|reflexivity].
      now destruct (nth_error _ _).
  - left. now destruct (nth_error _ _).
  - left. apply settle_effect.
  - now left.
Qed.

Lemma step_requests (seen : list event) (w : World) (now : N) (ev : event) :
  Forall (fun q => truthy (trim q) = true /\ In (Input q) seen) (requested w) ->
  (forall d a, pending w = Some (d, a) -> In (Input a) seen) ->
  Forall (fun q => truthy (trim q) = true /\ In (Input q) (seen ++ [ev]))
         (requested (step w (now, ev))) /\
  (forall d a, pending (step w (now, ev)) = Some (d, a) ->
               In (Input a) (seen ++ [ev])).
Proof.
  intros Hr Hp. rewrite step_eq.
  set (w1 := snd (fire_due now w)).
  assert (H1 : Forall (fun q => truthy (trim q) = true /\ In (Input q) seen)
                      (requested w1) /\
               (forall d a, pending w1 = Some (d, a) -> In (Input a) seen)).
  { subst w1. destruct (fire_due_cases now w)
      as [->|(d & a & Ep & _ & Ep1 & _ & _ & _ & _ & Hc)]; [now split|].
    split; [|intros d' a' E; congruence].
    destruct Hc as [(_ & -> & _)|(Ht & -> & _)]; [assumption|].
    apply Forall_app. split; [assumption|].
    constructor; [|constructor]. split; [assumption | eauto]. }
  clearbody w1. destruct H1 as [Hr1 Hp1].
  assert (Hreq : requested (snd (handle now ev w1)) = requested w1).
  { destruct ev as [value|k|index|id response|];
      try (apply handle_keeps_requests; discriminate).
    apply settle_effect. }
  rewrite Hreq. split.
  - eapply Forall_impl; [|exact Hr1].
    intros q [Hq Hin]. split; [assumption|]. apply in_or_app. now left.
  - intros d a E.
    destruct (handle_pending now ev w1) as [Hk|(value & -> & Hk)];
      rewrite Hk in E.
    + apply in_or_app. left. eauto.
    + injection E as _ <-. apply in_or_app. right. now left.
Qed.

Lemma run_requests (trace : list (N * event)) :
  forall seen w,
    Forall (fun q => truthy (trim q) = true /\ In (Input q) seen)
           (requested w) ->
    (forall d a, pending w = Some (d, a) -> In (Input a) seen) ->
    Forall (fun q => truthy (trim q) = true /\
                     In (Input q) (seen ++ map snd trace))
           (requested (run w trace)).
Proof.
  induction trace as [|[now ev] trace IH]; intros seen w Hr Hp.
  - cbn. now rewrite app_nil_r.
  - cbn [run fold_left map snd].
    destruct (step_requests seen w now ev Hr Hp) as [Hr' Hp'].
    specialize (IH (seen ++ [ev]) (step w (now, ev)) Hr' Hp').
    rewrite <- app_assoc in IH. exact IH.
Qed.

(** X7.  Whatever happens to the component, every query it has passed to
    [searchLocation] is a text the user typed, and none of them is
    blank. *)
Theorem requests_are_typed_and_not_blank (trace : list (N * event)) :
  Forall (fun q => truthy (trim q) = true /\ In (Input q) (map snd trace))
         (requested (run initial trace)).
Proof.
  apply (run_requests trace [] initial); [constructor|].
  intros d a E. discriminate.
Qed.

Lemma step_loading (w : World) (now : N) (ev : event) :
  (isLoading (ui w) = true -> inflight w <> []) ->
  isLoading (ui (step w (now, ev))) = true -> inflight (step w (now, ev)) <> [].
Proof.
  intros Hinv. rewrite step_eq. set (w1 := snd (fire_due now w)).
  assert (H1 : isLoading (ui w1) = true -> inflight w1 <> []).
  { subst w1. destruct (fire_due_cases now w)
      as [->|(d & a & _ & _ & _ & _ & _ & _ & _ & Hc)]; [assumption|].
    destruct Hc as [(_ & _ & -> & -> & _)|(_ & _ & -> & _)]; [assumption|].
    intros _ E. now apply app_eq_nil in E as [_ E]. }
  clearbody w1.
  assert (Hk : forall e, (forall id r, e <> Settle id r) ->
            isLoading (ui (snd (handle now e w1))) = true ->
            inflight (snd (handle now e w1)) <> []).
  { intros e He. destruct (handle_keeps_requests now e w1 He) as (_ & -> & ->).
    exact H1. }
  destruct ev as [value|k|index|id response|];
    try (apply Hk; intros; discriminate).
  cbn [handle].
  destruct (settle_effect id response w1)
    as (_ & _ & _ & _ & _ & [(_ & ->)|(_ & -> & _)]);
    [exact H1 | discriminate].
Qed.

(** X8.  The loading flag is set only while a request is in flight: in
    every state the component reaches, a spinner on the screen means that
    some request has not settled yet. *)
Theorem loading_means_in_flight (trace : list (N * event)) :
  isLoading (ui (run initial trace)) = true ->
  inflight (run initial trace) <> [].
Proof.
  assert (H : forall w,
            (isLoading (ui w) = true -> inflight w <> []) ->
            isLoading (ui (run w trace)) = true -> inflight (run w trace) <> []).
  { induction trace as [|[now ev] trace IH]; intros w Hw; [exact Hw|].
    cbn [run fold_left]. apply IH. now apply step_loading. }
  apply H. discriminate.
Qed.

Lemma loading_means_in_flight_witness :
  inflight (run initial blank_in_flight) <> [].
Proof.
  apply (loading_means_in_flight blank_in_flight).
  vm_compute. reflexivity.
Defined.

(** X9.  [onLocationSelect] is only ever given a result of the list on
    the screen: an event leaves the callback alone, or calls it once with
    a result that is in the list at that moment. *)
Theorem callback_gets_listed_result (w : World) (now : N) (ev : event) :
  selected (step w (now, ev)) = selected w \/
  exists result,
    In result (searchResults (ui (snd (fire_due now w)))) /\
    selected (step w (now, ev)) = selected w ++ [result].
Proof.
  rewrite step_eq. set (w1 := snd (fire_due now w)).
  assert (Hs : selected w1 = selected w).
  { subst w1. destruct (fire_due_cases now w)
      as [->|(d & a & _ & _ & _ & -> & _)]; reflexivity. }
  clearbody w1. rewrite <- Hs.
  destruct ev as [value|k|index|id response|]; cbn [handle].
  - now left.
  - unfold handleKeyDown, onSelect.
    destruct (Z.of_nat (length (searchResults (ui w1))) =? 0)%Z; [now left|].
    destruct k; try (now left).
    + destruct (0 <=? selectedIndex (ui w1))%Z; now left.
    + destruct ((0 <=? selectedIndex (ui w1)) &&
                (selectedIndex (ui w1) <? Z.of_nat (length (searchResults (ui w1)))))%Z;
        [|now left].
      destruct (nth_error _ _) as [result|] eqn:E; [|now left].
      right. exists result. split; [|reflexivity]. eapply nth_error_In, E.
  - destruct (nth_error _ _) as [result|] eqn:E; [|now left].
    right. exists result. split; [|reflexivity]. eapply nth_error_In, E.
  - left. apply settle_effect.
  - now left.
Qed.

(** X10.  A request that settles resets the loading flag even when a
    newer request is still in flight: the spinner goes away although an
    answer is still to come. *)
Theorem settle_resets_loading_early
    (w : World) (now : N) (id other : nat)
    (response : completion (list SearchResult)) :
  In id (inflight w) -> In other (inflight w) -> other <> id ->
  isLoading (ui (step w (now, Settle id response))) = false /\
  In other (inflight (step w (now, Settle id response))).
Proof.
  intros Hid Hother Hne. rewrite step_eq. cbn [handle].
  pose proof (fire_due_inflight now w id Hid) as Hid1.
  pose proof (fire_due_inflight now w other Hother) as Hother1.
  destruct (settle_effect id response (snd (fire_due now w)))
    as (_ & _ & _ & _ & _ & [(E & _)|(_ & -> & ->)]).
  - rewrite (existsb_eqb_In _ _ Hid1) in E. discriminate.
  - split; [reflexivity|]. apply filter_In. split; [assumption|].
    apply negb_true_iff, Nat.eqb_neq. congruence.
Qed.

Lemma settle_resets_loading_early_witness :
  isLoading (ui (step
    (run initial [(0, Input (lit "a")); (350, Input (lit "ab")); (700, Tick)]%N)
    (800%N, Settle 0 (Normal R1)))) = false /\
  In 1 (inflight (step
    (run initial [(0, Input (lit "a")); (350, Input (lit "ab")); (700, Tick)]%N)
    (800%N, Settle 0 (Normal R1)))).
Proof.
  apply settle_resets_loading_early.
  - vm_compute. auto.
  - vm_compute. auto.
  - discriminate.
Defined.

Lemma fire_due_idle (now : N) (w : World) :
  (forall d a, pending w = Some (d, a) -> (now < d)%N) ->
  snd (fire_due now w) = w.
Proof.
  intros H. unfold fire_due. destruct (pending w) as [[d a]|]; [|reflexivity].
  cbn [Debounce.elapse]. specialize (H d a eq_refl).
  destruct (N.leb_spec d now); [lia | reflexivity].
Qed.

Lemma fire_due_when_due (now d : N) (a : jsstring) (w : World) :
  pending w = Some (d, a) -> (d <= now)%N ->
  requested (snd (fire_due now w))
  = requested w ++ (if truthy (trim a) then [a] else []) /\
  searchQuery (ui (snd (fire_due now w))) = searchQuery (ui w) /\
  isLoading (ui (snd (fire_due now w)))
  = (if truthy (trim a) then true else isLoading (ui w)) /\
  pending (snd (fire_due now w)) = None.
Proof.
  intros Ep Hd. unfold fire_due. rewrite Ep. cbn [Debounce.elapse].
  destruct (N.leb_spec d now); [|lia]. unfold debouncedSearch_start.
  destruct (truthy (trim a)); cbn; rewrite ?app_nil_r; repeat split.
Qed.

Lemma run_app (w : World) (t1 t2 : list (N * event)) :
  run w (t1 ++ t2) = run (run w t1) t2.
Proof. apply fold_left_app. Qed.

(** While the keys come faster than the delay, the timer is moved on and
    no request is made. *)
Lemma burst_inputs (cs : list (N * jsstring)) :
  forall w t0 a0,
    pending w = Some ((t0 + delayMs)%N, a0) ->
    Debounce.burst delayMs ((t0, a0) :: cs) ->
    pending (run w (map (fun c => (fst c, Input (snd c))) cs))
    = Some ((fst (last cs (t0, a0)) + delayMs)%N, snd (last cs (t0, a0))) /\
    requested (run w (map (fun c => (fst c, Input (snd c))) cs)) = requested w.
Proof.
  induction cs as [|[t1 a1] cs IH]; intros w t0 a0 Ep Hb; [now split|].
  destruct Hb as [Ht Hb]. cbn [map run fold_left fst snd].
  fold (run (step w (t1, Input a1)) (map (fun c => (fst c, Input (snd c))) cs)).
  assert (Hs : pending (step w (t1, Input a1)) = Some ((t1 + delayMs)%N, a1) /\
               requested (step w (t1, Input a1)) = requested w).
  { rewrite step_eq, fire_due_idle; [now split|].
    intros d a E. rewrite Ep in E. injection E as <- <-. lia. }
  destruct Hs as [Hp Hr].
  destruct (IH _ t1 a1 Hp Hb) as [IHp IHr].
  rewrite IHp, IHr, Hr, last_cons_default. now split.
Qed.

(** X11.  A burst of keystrokes costs one request: when each key comes
    before the delay of the one before has passed, then once the delay
    after the last key is over, the text typed last has been requested
    and no other, and nothing at all when that text is blank. *)
Theorem keystroke_burst_one_request
    (w : World) (cs : list (N * jsstring)) (t : N) (a : jsstring)
    (horizon : N) :
  pending w = None ->
  Debounce.burst delayMs (cs ++ [(t, a)]) ->
  (t + delayMs <= horizon)%N ->
  requested (run w (map (fun c => (fst c, Input (snd c))) (cs ++ [(t, a)])
                    ++ [(horizon, Tick)]))
  = requested w ++ (if truthy (trim a) then [a] else []).
Proof.
  intros Ep Hb Hh. rewrite run_app.
  destruct (cs ++ [(t, a)]) as [|[t0 a0] rest] eqn:E.
  { now destruct cs. }
  assert (Hl : last rest (t0, a0) = (t, a)).
  { rewrite <- (last_cons_default rest (t0, a0) (t0, a0)), <- E.
    apply last_last. }
  cbn [map run fold_left fst snd].
  fold (run (step w (t0, Input a0)) (map (fun c => (fst c, Input (snd c))) rest)).
  assert (Hs : pending (step w (t0, Input a0)) = Some ((t0 + delayMs)%N, a0) /\
               requested (step w (t0, Input a0)) = requested w).
  { rewrite step_eq, fire_due_idle; [now split|].
    intros d a' E'. congruence. }
  destruct Hs as [Hp Hr].
  destruct (burst_inputs rest _ t0 a0 Hp Hb) as [Hp' Hr'].
  rewrite Hl in Hp'. cbn [fst snd] in Hp'.
  set (w' := run (step w (t0, Input a0))
                 (map (fun c => (fst c, Input (snd c))) rest)) in *.
  change (fold_left step [(horizon, Tick)] w') with (step w' (horizon, Tick)).
  rewrite step_eq. cbn [handle ret snd].
  destruct (fire_due_when_due horizon _ a w' Hp' Hh) as (-> & _).
  now rewrite Hr', Hr.
Qed.

Lemma keystroke_burst_one_request_witness :
  requested (run initial
    [(0, Input (lit "p")); (50, Input (lit "pa")); (100, Input (lit "par"));
     (150, Input (lit "pari")); (450, Tick)]%N) = [lit "pari"].
Proof.
  apply (keystroke_burst_one_request initial
           [(0, lit "p"); (50, lit "pa"); (100, lit "par")]%N
           150%N (lit "pari") 450%N).
  - reflexivity.
  - cbn. unfold delayMs. repeat split; lia.
  - unfold delayMs. lia.
Defined.

(** X12.  Neither a commit nor Escape stops the search that is waiting in
    the debounce timer: when its time comes it runs all the same, and
    requests the text typed before, although the commit has emptied the
    query. *)
Theorem pending_search_survives_commit
    (w : World) (result : SearchResult) (d now : N) (a : jsstring) :
  pending w = Some (d, a) -> truthy (trim a) = true -> (d <= now)%N ->
  requested (step (snd (handleSelectResult result w)) (now, Tick))
  = requested w ++ [a] /\
  searchQuery (ui (step (snd (handleSelectResult result w)) (now, Tick))) = [] /\
  isLoading (ui (step (snd (handleSelectResult result w)) (now, Tick))) = true /\
  requested (step (snd (onEscape w)) (now, Tick)) = requested w ++ [a] /\
  isLoading (ui (step (snd (onEscape w)) (now, Tick))) = true.
Proof.
  intros Ep Ha Hd. rewrite !step_eq. cbn [handle ret snd].
  destruct (fire_due_when_due now d a (snd (handleSelectResult result w)) Ep Hd)
    as (-> & -> & -> & _).
  destruct (fire_due_when_due now d a (snd (onEscape w)) Ep Hd)
    as (-> & _ & -> & _).
  rewrite Ha. repeat split.
Qed.

Lemma pending_search_survives_commit_witness :
  requested (step (snd (handleSelectResult (hd Render.Paris R2)
                          (step (run initial keys_before_answer)
                                (1000%N, Input (lit "abc")))))
                  (2000%N, Tick))
  = requested (step (run initial keys_before_answer)
                    (1000%N, Input (lit "abc"))) ++ [lit "abc"].
Proof.
  refine (proj1 (pending_search_survives_commit
            (step (run initial keys_before_answer) (1000%N, Input (lit "abc")))
            (hd Render.Paris R2) 1300%N 2000%N (lit "abc") _ _ _)).
  - vm_compute. reflexivity.
  - vm_compute. reflexivity.
  - lia.
Defined.

(** X13.  A commit does not drop the requests in flight: when one of them
    settles afterwards, its results are put on the screen, under a query
    that is empty. *)
Theorem response_after_commit_is_shown
    (w : World) (result : SearchResult) (now : N) (id : nat)
    (results : list SearchResult) :
  In id (inflight w) ->
  searchResults (ui (step (snd (handleSelectResult result w))
                          (now, Settle id (Normal results)))) = results /\
  searchQuery (ui (step (snd (handleSelectResult result w))
                        (now, Settle id (Normal results)))) = [].
Proof.
  intros Hin. rewrite step_eq. cbn [handle].
  set (w0 := snd (handleSelectResult result w)).
  assert (Hin0 : In id (inflight w0)) by exact Hin.
  pose proof (fire_due_inflight now w0 id Hin0) as Hin1.
  assert (Hq : searchQuery (ui (snd (fire_due now w0))) = []).
  { destruct (fire_due_cases now w0)
      as [->|(d & a & _ & _ & _ & _ & _ & -> & _)]; reflexivity. }
  split.
  - unfold settle. rewrite (existsb_eqb_In _ _ Hin1). reflexivity.
  - destruct (settle_effect id (Normal results) (snd (fire_due now w0)))
      as (_ & _ & _ & -> & _). exact Hq.
Qed.

Lemma response_after_commit_is_shown_witness :
  searchResults (ui (step
    (snd (handleSelectResult (hd Render.Paris R2)
            (run initial [(0, Input (lit "a")); (350, Tick)]%N)))
    (900%N, Settle 0 (Normal R1)))) = R1.
Proof.
  refine (proj1 (response_after_commit_is_shown
            (run initial [(0, Input (lit "a")); (350, Tick)]%N)
            (hd Render.Paris R2) 900%N 0 R1 _)).
  vm_compute. auto.
Defined.

(** ** What is rendered *)

Import Render.

Lemma rbind_ok {A B} (m : R A) (k : A -> R B) (a : A) :
  m = ([], Normal a) -> rbind m k = k a.
Proof. intros ->. cbn. now destruct (k a). Qed.

(** Highlighting changes no character of the text, and does not fail. *)
Lemma highlightMatch_shown (text query : jsstring) :
  exists r, highlightMatch text query = ([], Normal r) /\ shown r = text.
Proof.
  destruct (truthy (trim query)) eqn:Hq.
  - destruct (highlightMatch_spans text query Hq) as (parts & H & Hc & _).
    eexists. split; [exact H|]. cbn [shown]. rewrite map_map. cbn [fst].
    now rewrite map_id.
  - exists (Text text). split; [|reflexivity].
    unfold highlightMatch, highlightMatch_with. now rewrite Hq.
Qed.

Lemma getFlagEmoji_ok (code : option jsstring) :
  (forall cc, code = Some cc -> well_formed cc) ->
  exists flag, getFlagEmoji code = Normal flag.
Proof.
  intros H. destruct code as [cc|]; [|now exists []].
  rewrite getFlagEmoji_code, (fromCodePoint_flags cc (H cc eq_refl)). eauto.
Qed.

Lemma render_postcode_ok (result : SearchResult) (query : jsstring) :
  exists pc, render_postcode result query = ([], Normal pc).
Proof.
  unfold render_postcode. destruct (address result) as [a|]; [|now exists None].
  destruct (postcode a) as [pc|]; [|now exists None].
  destruct (truthy pc); [|now exists None].
  destruct (highlightMatch_shown pc query) as (r & H & _).
  exists (Some r). now rewrite (rbind_ok _ _ r H).
Qed.

Lemma name_around_separator (name first : jsstring) (rest : list jsstring) :
  split name (lit ", ") = Normal (first :: rest) ->
  (first = name /\ join (lit ", ") rest = []) \/
  name = first ++ lit ", " ++ join (lit ", ") rest.
Proof.
  intros Hs.
  destruct (split_separator name (lit ", ")) as (f & r & Hs' & _ & Hc);
    [discriminate|].
  rewrite Hs in Hs'. injection Hs' as <- <-.
  destruct Hc as [(-> & -> & _)|(q & _ & Hq & _ & -> & ->)]; [now left|].
  right. apply starts_with_firstn in Hq as [Hq _].
  rewrite <- (firstn_skipn q name) at 1. f_equal.
  rewrite <- (firstn_skipn 2 (skipn q name)) at 1.
  change (length (lit ", ")) with 2 in *. rewrite Hq, skipn_skipn.
  do 2 f_equal. lia.
Qed.

Lemma render_option_ok (query : jsstring) (sel : Z) (index : nat)
    (result : SearchResult) :
  (forall cc, address_country_code result = Some cc -> well_formed cc) ->
  exists o,
    render_option query sel index result = ([], Normal o) /\
    option_id o = result_id index /\
    aria_selected o = (Z.of_nat index =? sel)%Z /\
    ((shown (main_line o) = display_name result /\
      shown (secondary_line o) = []) \/
     display_name result
     = shown (main_line o) ++ lit ", " ++ shown (secondary_line o)).
Proof.
  intros Hw. unfold render_option, lift.
  destruct (split_separator (display_name result) (lit ", "))
    as (first & rest & Hs & _); [discriminate|].
  pose proof (name_around_separator _ _ _ Hs) as Hname.
  unfold getLocationDetails. rewrite Hs. cbn [bind].
  rewrite (rbind_ok _ _ _ eq_refl). cbn [mainText secondaryText nth_error].
  destruct (getFlagEmoji_ok _ Hw) as (flag & ->).
  rewrite (rbind_ok _ _ _ eq_refl).
  destruct (highlightMatch_shown first query) as (main & Hm & Sm).
  rewrite (rbind_ok _ _ _ Hm).
  destruct (highlightMatch_shown (join (lit ", ") (tl (first :: rest))) query)
    as (secondary & Hsec & Ss).
  rewrite (rbind_ok _ _ _ Hsec).
  destruct (render_postcode_ok result query) as (pc & Hpc).
  rewrite (rbind_ok _ _ _ Hpc).
  eexists. split; [reflexivity|]. cbn [option_id aria_selected main_line
                                       secondary_line tl] in *.
  rewrite Sm, Ss. auto.
Qed.

Lemma render_options_ok (query : jsstring) (sel : Z)
    (results : list SearchResult) :
  (forall result cc, In result results ->
                     address_country_code result = Some cc -> well_formed cc) ->
  forall index,
  exists options,
    render_options query sel index results = ([], Normal options) /\
    length options = length results /\
    forall k o, nth_error options k = Some o ->
                option_id o = result_id (index + k) /\
                aria_selected o = (Z.of_nat (index + k) =? sel)%Z.
Proof.
  induction results as [|result results IH]; intros Hw index.
  - exists []. repeat split; destruct k; discriminate.
  - destruct (render_option_ok query sel index result) as (o & Ho & Hid & Hsel & _).
    { intros cc. apply Hw. now left. }
    destruct (IH (fun r cc Hin => Hw r cc (or_intror Hin)) (S index))
      as (os & Hos & Hlen & Hnth).
    exists (o :: os). cbn [render_options].
    rewrite (rbind_ok _ _ _ Ho), (rbind_ok _ _ _ Hos).
    split; [reflexivity|]. split; [cbn; now rewrite Hlen|].
    intros [|k] o' E; cbn in E.
    + injection E as <-.
      now rewrite Nat.add_0_r.
    + destruct (Hnth k o' E) as [H1 H2].
      replace (index + S k) with (S index + k) by lia. now split.
Qed.

Lemma lit_inj (s1 s2 : string) : lit s1 = lit s2 -> s1 = s2.
Proof.
  unfold lit. intros H.
  rewrite <- (string_of_list_ascii_of_string s1),
          <- (string_of_list_ascii_of_string s2).
  f_equal. revert H.
  generalize (list_ascii_of_string s1) (list_ascii_of_string s2).
  induction l as [|a l IH]; intros [|b l'] H; try discriminate;
    [reflexivity|].
  cbn in H. injection H as Hab H. f_equal; [|now apply IH].
  rewrite <- (ascii_N_embedding a), <- (ascii_N_embedding b). now rewrite Hab.
Qed.

(** Different indices give different ids. *)
Lemma result_id_inj (i j : nat) : result_id i = result_id j -> i = j.
Proof.
  unfold result_id, decimal. intros H. apply app_inv_head, lit_inj in H.
  apply Unsigned.to_uint_inj.
  pose proof (NilEmpty.usu (Nat.to_uint i)) as Hi.
  pose proof (NilEmpty.usu (Nat.to_uint j)) as Hj.
  rewrite H in Hi. congruence.
Qed.

Lemma render_postcode_shown (result : SearchResult) (query : jsstring) :
  exists pc,
    render_postcode result query = ([], Normal pc) /\
    match address_postcode result with
    | Some p =>
        if truthy p then exists r, pc = Some r /\ shown r = p else pc = None
    | None => pc = None
    end.
Proof.
  unfold render_postcode, address_postcode.
  destruct (address result) as [a|]; [|now exists None].
  destruct (postcode a) as [p|]; [|now exists None].
  destruct (truthy p); [|now exists None].
  destruct (highlightMatch_shown p query) as (r & H & Hs).
  exists (Some r). rewrite (rbind_ok _ _ r H). eauto.
Qed.

Lemma render_ok (s : State) :
  (forall result cc, In result (searchResults s) ->
                     address_country_code result = Some cc -> well_formed cc) ->
  exists view,
    render s = ([], Normal view) /\
    aria_activedescendant view
    = (if (0 <=? selectedIndex s)%Z
       then Some (result_id (Z.to_nat (selectedIndex s))) else None) /\
    aria_expanded view = (0 <? length (searchResults s)) /\
    input_value view = searchQuery s /\ spinner view = isLoading s /\
    ((searchResults s = [] /\ listbox view = None) \/
     (searchResults s <> [] /\
      exists options,
        listbox view = Some options /\
        length options = length (searchResults s) /\
        forall k o, nth_error options k = Some o ->
                    option_id o = result_id k /\
                    aria_selected o = (Z.of_nat k =? selectedIndex s)%Z)).
Proof.
  intros Hw. unfold render.
  destruct (searchResults s) as [|r rs] eqn:E.
  - unfold rret. cbn [rbind app]. eexists. split; [reflexivity|].
    cbn [aria_activedescendant aria_expanded input_value spinner listbox length].
    repeat split. now left.
  - destruct (render_options_ok (searchQuery s) (selectedIndex s) (r :: rs) Hw 0)
      as (options & Ho & Hlen & Hnth).
    rewrite (rbind_ok _ _ (Some options)).
    2:{ now rewrite (rbind_ok _ _ _ Ho). }
    eexists. split; [reflexivity|].
    cbn [aria_activedescendant aria_expanded input_value spinner listbox].
    repeat split. right. split; [discriminate|]. exists options.
    repeat split; try assumption; now apply Hnth.
Qed.

(** X14.  Rendering does not throw and logs nothing, whatever the query
    and the results: there is no list without results, and one option for
    each result otherwise. *)
Theorem render_never_throws (s : State) :
  (forall result cc, In result (searchResults s) ->
                     address_country_code result = Some cc -> well_formed cc) ->
  exists view,
    render s = ([], Normal view) /\
    match listbox view with
    | None => searchResults s = [] /\ aria_expanded view = false
    | Some options =>
        searchResults s <> [] /\ aria_expanded view = true /\
        length options = length (searchResults s)
    end.
Proof.
  intros Hw.
  destruct (render_ok s Hw) as (view & Hr & _ & He & _ & _ & Hl).
  exists view. split; [assumption|].
  destruct Hl as [(E & ->)|(E & options & -> & Hlen & _)].
  - split; [assumption|]. now rewrite He, E.
  - repeat split; try assumption. rewrite He.
    destruct (searchResults s); [congruence | reflexivity].
Qed.

Lemma render_never_throws_witness :
  exists view,
    render {| searchQuery := lit "par"; searchResults := [Paris];
              isLoading := false; selectedIndex := 0 |}
    = ([], Normal view) /\
    match listbox view with
    | None => [Paris] = [] /\ aria_expanded view = false
    | Some options =>
        [Paris] <> [] /\ aria_expanded view = true /\ length options = 1
    end.
Proof.
  apply (render_never_throws
           {| searchQuery := lit "par"; searchResults := [Paris];
              isLoading := false; selectedIndex := 0 |}).
  intros result cc [<-|[]] [= <-]. repeat constructor.
Defined.

(** X15.  The option marked [aria-selected] is the one the input names in
    [aria-activedescendant], and no other.  The id named there belongs to
    an option of the list exactly when the selected index is inside the
    list: with an index left over from a longer list the input points at
    an option that is not there. *)
Theorem aria_selection_consistent (s : State) :
  (forall result cc, In result (searchResults s) ->
                     address_country_code result = Some cc -> well_formed cc) ->
  exists view,
    render s = ([], Normal view) /\
    (forall options o,
       listbox view = Some options -> In o options ->
       (aria_selected o = true <->
        aria_activedescendant view = Some (option_id o))) /\
    (forall id,
       aria_activedescendant view = Some id ->
       ((exists options o,
           listbox view = Some options /\ In o options /\ option_id o = id) <->
        (selectedIndex s < Z.of_nat (length (searchResults s)))%Z)).
Proof.
  intros Hw.
  destruct (render_ok s Hw) as (view & Hr & Ha & _ & _ & _ & Hl).
  exists view. split; [assumption|]. rewrite Ha. split.
  - intros options o Hopt Hin.
    destruct Hl as [(_ & E)|(_ & options' & E & Hlen & Hnth)];
      rewrite E in Hopt; [discriminate|]. injection Hopt as <-.
    apply In_nth_error in Hin as [k Hk].
    destruct (Hnth k o Hk) as [-> ->]. rewrite Z.eqb_eq. split.
    + intros <-. destruct (Z.leb_spec 0 (Z.of_nat k)); [|lia].
      now rewrite Nat2Z.id.
    + destruct (Z.leb_spec 0 (selectedIndex s)); [|discriminate].
      intros H1.
      assert (H0 : result_id (Z.to_nat (selectedIndex s)) = result_id k)
        by congruence.
      apply result_id_inj in H0. lia.
  - intros id. destruct (Z.leb_spec 0 (selectedIndex s)) as [H0|];
      [|discriminate].
    intros [= <-]. split.
    + intros (options & o & Hopt & Hin & Hid).
      destruct Hl as [(_ & E)|(_ & options' & E & Hlen & Hnth)];
        rewrite E in Hopt; [discriminate|]. injection Hopt as <-.
      apply In_nth_error in Hin as [k Hk].
      pose proof (proj1 (nth_error_Some options' k) ltac:(congruence)) as Hlt.
      destruct (Hnth k o Hk) as [Hid' _]. rewrite Hid' in Hid.
      apply result_id_inj in Hid. lia.
    + intros Hlt.
      destruct Hl as [(E & _)|(_ & options & E & Hlen & Hnth)].
      { rewrite E in Hlt. cbn in Hlt. lia. }
      destruct (nth_error options (Z.to_nat (selectedIndex s))) as [o|] eqn:Ho.
      * exists options, o. split; [assumption|].
        split; [eapply nth_error_In, Ho | apply (Hnth _ _ Ho)].
      * apply nth_error_None in Ho. lia.
Qed.

Lemma aria_selection_consistent_witness :
  exists view,
    render (ui (run initial keys_before_answer)) = ([], Normal view) /\
    aria_activedescendant view = Some (result_id 1) /\
    (exists options, listbox view = Some options /\ length options = 1).
Proof.
  destruct (aria_selection_consistent (ui (run initial keys_before_answer)))
    as (view & Hr & _).
  { intros result cc Hin. vm_compute in Hin. destruct Hin as [<-|[]].
    discriminate. }
  exists view. split; [exact Hr|].
  vm_compute in Hr. injection Hr as <-. split; [reflexivity|].
  eexists. split; reflexivity.
Defined.

Lemma name_cut_at_separator (name first : jsstring) (rest : list jsstring) :
  split name (lit ", ") = Normal (first :: rest) ->
  ((forall q, q < length name -> starts_with (lit ", ") (skipn q name) = false) /\
   first = name /\ join (lit ", ") rest = []) \/
  (exists q,
     q < length name /\ starts_with (lit ", ") (skipn q name) = true /\
     (forall q', q' < q -> starts_with (lit ", ") (skipn q' name) = false) /\
     first = firstn q name /\ join (lit ", ") rest = skipn (q + 2) name).
Proof.
  intros Hs.
  destruct (split_separator name (lit ", ")) as (f & r & Hs' & _ & Hc);
    [discriminate|].
  rewrite Hs in Hs'.
  assert (Hf : f = first) by congruence.
  assert (Hr : r = rest) by congruence.
  subst f r.
  destruct Hc as [(-> & -> & Hno)|(q & Hq & Hm & Hno & Hfirst & Hrest)].
  - left. now repeat split.
  - right. exists q. now repeat split.
Qed.

(** X16.  An option shows its result and nothing else.  The flag is the
    flag of the country code.  For a name without [", "] the main line is
    the whole name and the second line is empty; for a name with [", "]
    the main line is the name up to its first [", "] and the second line
    all of the name after it.  The postcode line is there for a postcode
    that is not empty, and shows it.  Highlighting changes no character
    shown. *)
Theorem option_shows_the_result (query : jsstring) (sel : Z) (index : nat)
    (result : SearchResult) :
  (forall cc, address_country_code result = Some cc -> well_formed cc) ->
  exists o,
    render_option query sel index result = ([], Normal o) /\
    getFlagEmoji (address_country_code result) = Normal (flag o) /\
    (((forall q, q < length (display_name result) ->
                 starts_with (lit ", ") (skipn q (display_name result)) = false) /\
      shown (main_line o) = display_name result /\
      shown (secondary_line o) = []) \/
     (exists q,
        q < length (display_name result) /\
        starts_with (lit ", ") (skipn q (display_name result)) = true /\
        (forall q', q' < q ->
                    starts_with (lit ", ") (skipn q' (display_name result))
                    = false) /\
        shown (main_line o) = firstn q (display_name result) /\
        shown (secondary_line o) = skipn (q + 2) (display_name result))) /\
    match address_postcode result with
    | Some p =>
        if truthy p
        then exists r, postcode_line o = Some r /\ shown r = p
        else postcode_line o = None
    | None => postcode_line o = None
    end.
Proof.
  intros Hw. unfold render_option, lift.
  destruct (split_separator (display_name result) (lit ", "))
    as (first & rest & Hs & _); [discriminate|].
  pose proof (name_cut_at_separator _ _ _ Hs) as Hname.
  unfold getLocationDetails. rewrite Hs. cbn [bind].
  rewrite (rbind_ok _ _ _ eq_refl). cbn [mainText secondaryText nth_error].
  destruct (getFlagEmoji_ok _ Hw) as (fl & ->).
  rewrite (rbind_ok _ _ _ eq_refl).
  destruct (highlightMatch_shown first query) as (main & Hm & Sm).
  rewrite (rbind_ok _ _ _ Hm).
  destruct (highlightMatch_shown (join (lit ", ") (tl (first :: rest))) query)
    as (secondary & Hsec & Ss).
  rewrite (rbind_ok _ _ _ Hsec).
  destruct (render_postcode_shown result query) as (pc & Hpc & Hshown).
  rewrite (rbind_ok _ _ _ Hpc).
  eexists. split; [reflexivity|].
  cbn [flag main_line secondary_line postcode_line tl] in *.
  rewrite Sm, Ss. split; [reflexivity|]. split; [|exact Hshown].
  destruct Hname as [(Hno & -> & ->)|(q & Hq & Hm' & Hno & -> & ->)].
  - left. now repeat split.
  - right. exists q. now repeat split.
Qed.

Lemma option_shows_the_result_witness :
  exists o,
    render_option (lit "par") 0 0 Paris = ([], Normal o) /\
    flag o = [55356; 56811; 55356; 56823]%N /\
    shown (main_line o) = lit "Paris" /\
    shown (secondary_line o) = lit "France".
Proof.
  destruct (option_shows_the_result (lit "par") 0 0 Paris)
    as (o & Hr & _).
  { intros cc [= <-]. repeat constructor. }
  exists o. split; [exact Hr|].
  vm_compute in Hr. injection Hr as <-. repeat split.
Defined.
